(** * Trac Oracle Aggregator: reputation-based weighted consensus

    A shallow embedding of [consensus.js] and the properties of its
    statistics module, slashing engine and consensus orchestrator.

    Numbers.  The program is embedded twice.  In the first embedding
    JavaScript numbers are mathematical reals: the arithmetic of the
    program ([+], [-], [/], [Math.abs], [Math.pow (_, 2)], [Math.sqrt]) is
    taken exactly, without rounding, NaN or infinities.  Every division the
    program performs has a non-zero divisor on the path that reaches it (a
    non-zero length, the constant 2, or a standard deviation tested against
    0 first).  It carries the properties of the store, of the slashing
    engine and of the flow of a round.  The second embedding, the module
    [Numeric], is the same program over a type of numbers whose operations
    are left open, with exact arithmetic and binary64 as instances: it
    carries the properties that depend on how sums, quotients and square
    roots are computed.

    Store.  The sqlite table [reputation (peerId, offenses, blacklisted)] is
    a finite map from peer ids to rows; the three prepared statements are
    functions on that map, and every function of the program that touches
    the table takes the table and returns the new one.

    Console output ([console.log], [console.warn]) is not modelled: nothing
    in the program reads it back. *)

From Stdlib Require Import Floats.
From Stdlib Require Import Reals Lra Lia ZArith ZifyNat.
From stdpp Require Import base decidable option list sorting gmap strings.

Open Scope R_scope.

(** ** Decidable comparisons on numbers *)

#[global] Instance Rlt_decision : RelDecision Rlt := Rlt_dec.
#[global] Instance Rle_decision : RelDecision Rle := Rle_dec.
#[global] Instance Rgt_decision : RelDecision Rgt := Rgt_dec.
#[global] Instance Rge_decision : RelDecision Rge := Rge_dec.
#[global] Instance Req_decision : EqDecision R := Req_dec_T.

(** ** [Array.prototype.sort] with a comparator

    The sort of the language is stable: it orders by the sign of the
    comparator and keeps elements that compare equal in their input order.
    [js_insert x l] puts [x], which stood before every element of [l], in
    front of the first element it is not greater than. *)

Section Sort.
Context {A : Type} (compareFn : A -> A -> R).

Fixpoint js_insert (x : A) (l : list A) : list A :=
  match l with
  | [] => [x]
  | y :: l' =>
      if decide (compareFn x y > 0) then y :: js_insert x l'
      else x :: y :: l'
  end.

Fixpoint js_sort (l : list A) : list A :=
  match l with
  | [] => []
  | x :: l' => js_insert x (js_sort l')
  end.
End Sort.

(** [arr.reduce ((a, b) => a + b, 0)] *)
Definition sum (values : list R) : R := foldl (fun a b => a + b) 0 values.

(** ** Constants *)

Definition MINIMUM_STAKE_THRESHOLD : R := 100.
Definition SLASHING_THRESHOLD : Z := 3.

(** ** Data *)

(** A row of the table [reputation]; the key [peerId] is the key of the map. *)
Record Row := mkRow { row_offenses : Z; row_blacklisted : Z }.

Abbreviation DB := (gmap string Row).

(** The object returned by [getSlashingRecord]. *)
Record SlashingRecord := mkRecord { offenses : Z; blacklisted : bool }.

(** An incoming ORACLE_RES message [{ peerId, price, balance }]. *)
Record Submission := mkSubmission {
  sub_peerId : string;
  sub_price : R;
  sub_balance : R
}.

(** A response that passed the identity check
    [{ peerId, price, weight, balance }]. *)
Record QualifiedResponse := mkResponse {
  peerId : string;
  price : R;
  weight : R;
  balance : R
}.

(** The value returned by [processOracleConsensus]. *)
Record ConsensusResult := mkResult {
  finalPrice : R;
  participants : nat;
  totalWeight : R
}.

(** How a call of [processOracleConsensus] ends: [throw new Error (msg)] or
    [return]. *)
Inductive Completion :=
  | Throw (message : string)
  | Return (result : ConsensusResult).

(** ** Reputation store: the prepared statements *)

(** [SELECT offenses, blacklisted FROM reputation WHERE peerId = ?] *)
Definition stmtGet (db : DB) (p : string) : option Row := db !! p.

(** [INSERT OR IGNORE INTO reputation (peerId, offenses, blacklisted)
    VALUES (?, 0, 0)] *)
Definition stmtInsert (db : DB) (p : string) : DB :=
  match db !! p with
  | Some _ => db
  | None => <[p := mkRow 0 0]> db
  end.

(** [UPDATE reputation SET offenses = ?, blacklisted = ? WHERE peerId = ?] *)
Definition stmtUpdate (db : DB) (o b : Z) (p : string) : DB :=
  match db !! p with
  | Some _ => <[p := mkRow o b]> db
  | None => db
  end.

(** ** Slashing engine *)

Definition getSlashingRecord (db : DB) (p : string) : DB * SlashingRecord :=
  let '(db, row) :=
    match stmtGet db p with
    | Some row => (db, row)
    | None => (stmtInsert db p, mkRow 0 0)
    end in
  (db, mkRecord (row_offenses row) (bool_decide (row_blacklisted row = 1%Z))).

Definition recordSlashingOffense (db : DB) (p : string) : DB :=
  let '(db, record) := getSlashingRecord db p in
  let offenses' := (offenses record + 1)%Z in
  let blacklisted' :=
    if decide (offenses' >= SLASHING_THRESHOLD)%Z then true
    else blacklisted record in
  stmtUpdate db offenses' (if blacklisted' then 1%Z else 0%Z) p.

(** ** Statistics *)

Definition computeMedian (prices : list R) : R :=
  if decide (length prices = 0%nat) then 0
  else
    let sortedPrices := js_sort (fun a b => a - b) prices in
    let mid := (length sortedPrices / 2)%nat in
    if decide (length sortedPrices mod 2 = 0)%nat then
      (nth (mid - 1) sortedPrices 0 + nth mid sortedPrices 0) / 2
    else nth mid sortedPrices 0.

Definition computeStandardDeviation (prices : list R) (mean : R) : R :=
  if decide (length prices = 0%nat) then 0
  else
    let squaredDiffs := map (fun price => (price - mean) ^ 2) prices in
    let avgSquaredDiff := sum squaredDiffs / INR (length prices) in
    sqrt avgSquaredDiff.

Definition computeMean (prices : list R) : R :=
  if decide (length prices = 0%nat) then 0
  else sum prices / INR (length prices).

(** The [for ... of] loop of [calculateWeightedMedian]: [Some price] when
    the loop returns from inside, [None] when it runs to the end. *)
Fixpoint scanWeights (sortedResponses : list QualifiedResponse)
    (targetWeight cumulativeWeight : R) : option R :=
  match sortedResponses with
  | [] => None
  | response :: rest =>
      let cumulativeWeight := cumulativeWeight + weight response in
      if decide (cumulativeWeight >= targetWeight) then Some (price response)
      else scanWeights rest targetWeight cumulativeWeight
  end.

Definition sortByPrice (responses : list QualifiedResponse) :
    list QualifiedResponse :=
  js_sort (fun a b => price a - price b) responses.

Definition sumWeights (responses : list QualifiedResponse) : R :=
  foldl (fun sum res => sum + weight res) 0 responses.

Definition calculateWeightedMedian
    (qualifiedResponses : list QualifiedResponse) : R :=
  if decide (length qualifiedResponses = 0%nat) then 0
  else
    let sortedResponses := sortByPrice qualifiedResponses in
    let totalWeight := sumWeights sortedResponses in
    let targetWeight := totalWeight / 2 in
    match scanWeights sortedResponses targetWeight 0 with
    | Some p => p
    | None =>
        (* fallback: the last element of the sorted array *)
        match sortedResponses !! (length sortedResponses - 1)%nat with
        | Some response => price response
        | None => 0
        end
    end.

(** ** Consensus orchestrator *)

(** Loop 1, "Sybil Defense & Identity Check": runs over [responses] and
    pushes onto [validResponses]. *)
Fixpoint identityCheck (db : DB) (responses : list Submission)
    (validResponses : list QualifiedResponse) : DB * list QualifiedResponse :=
  match responses with
  | [] => (db, validResponses)
  | res :: rest =>
      let '(db, slashingRecord) := getSlashingRecord db (sub_peerId res) in
      if blacklisted slashingRecord then identityCheck db rest validResponses
      else if decide (sub_balance res < MINIMUM_STAKE_THRESHOLD) then
        identityCheck db rest validResponses
      else
        let weight := sqrt (sub_balance res) in
        identityCheck db rest
          (validResponses ++
             [mkResponse (sub_peerId res) (sub_price res) weight
                (sub_balance res)])
  end.

Definition zScore (medianPrice stdDev : R) (res : QualifiedResponse) : R :=
  let diff := Rabs (price res - medianPrice) in
  if decide (stdDev = 0) then 0 else diff / stdDev.

(** Loop 2, "Anti-Outlier Filter": runs over [validResponses], records an
    offense for each response it discards and pushes the others onto
    [qualifiedForConsensus]. *)
Fixpoint outlierFilter (medianPrice stdDev : R) (db : DB)
    (validResponses qualifiedForConsensus : list QualifiedResponse) :
    DB * list QualifiedResponse :=
  match validResponses with
  | [] => (db, qualifiedForConsensus)
  | res :: rest =>
      if decide (zScore medianPrice stdDev res > 2) then
        outlierFilter medianPrice stdDev (recordSlashingOffense db (peerId res))
          rest qualifiedForConsensus
      else
        outlierFilter medianPrice stdDev db rest (qualifiedForConsensus ++ [res])
  end.

(** The messages of the two errors. *)
Definition NoQualifiedResponses : string :=
  "No qualified responses for consensus.".

Definition NoResponsesPassedOutlierFilter : string :=
  "No responses passed the outlier filter.".

(** The body of [processOracleConsensus] from [const qualifiedForConsensus
    = []] to its end, as a function of the statistics computed before it:
    the second loop, the second [throw] and the consensus calculation. *)
Definition filterAndAggregate (medianPrice stdDev : R) (db : DB)
    (validResponses : list QualifiedResponse) : DB * Completion :=
  let '(db, qualifiedForConsensus) :=
    outlierFilter medianPrice stdDev db validResponses [] in
  if decide (length qualifiedForConsensus = 0%nat) then
    (db, Throw NoResponsesPassedOutlierFilter)
  else
    let finalPrice := calculateWeightedMedian qualifiedForConsensus in
    (db, Return (mkResult finalPrice (length qualifiedForConsensus)
                   (sumWeights qualifiedForConsensus))).

Definition processOracleConsensus (db : DB) (responses : list Submission) :
    DB * Completion :=
  let '(db, validResponses) := identityCheck db responses [] in
  if decide (length validResponses = 0%nat) then
    (db, Throw NoQualifiedResponses)
  else
    let prices := map price validResponses in
    let medianPrice := computeMedian prices in
    let meanPrice := computeMean prices in
    let stdDev := computeStandardDeviation prices meanPrice in
    filterAndAggregate medianPrice stdDev db validResponses.

(** ** Observing the store *)

(** What [getSlashingRecord] reports for a peer. *)
Definition offensesOf (db : DB) (p : string) : Z :=
  offenses (getSlashingRecord db p).2.

Definition blacklistedOf (db : DB) (p : string) : bool :=
  blacklisted (getSlashingRecord db p).2.

(** The operations of the reputation store and the slashing engine, and
    their effect on the table. *)
Inductive Op :=
  | OpGet (p : string)       (* getSlashingRecord (p) *)
  | OpRecord (p : string).   (* recordSlashingOffense (p) *)

#[global] Instance Op_eq_dec : EqDecision Op.
Proof. solve_decision. Defined.

Definition step (db : DB) (op : Op) : DB :=
  match op with
  | OpGet p => (getSlashingRecord db p).1
  | OpRecord p => recordSlashingOffense db p
  end.

Definition run (db : DB) (ops : list Op) : DB := foldl step db ops.

(** The condition of the outlier filter as the specification words it. *)
Definition isOutlier (medianPrice stdDev : R) (res : QualifiedResponse) : Prop :=
  0 < stdDev /\ Rabs (price res - medianPrice) > 2 * stdDev.

#[global] Instance isOutlier_decision medianPrice stdDev res :
  Decision (isOutlier medianPrice stdDev res).
Proof. unfold isOutlier. apply _. Defined.

(** The condition of the identity check as the specification words it: the
    peer is not blacklisted and its balance is not below the threshold. *)
Definition qualifies (db : DB) (res : Submission) : Prop :=
  blacklistedOf db (sub_peerId res) = false /\
  ~ sub_balance res < MINIMUM_STAKE_THRESHOLD.

#[global] Instance qualifies_decision db res : Decision (qualifies db res).
Proof. unfold qualifies. apply _. Defined.

Definition toResponse (res : Submission) : QualifiedResponse :=
  mkResponse (sub_peerId res) (sub_price res) (sqrt (sub_balance res))
    (sub_balance res).

(** The statistics of a round over its valid responses. *)
Definition roundMedian (validResponses : list QualifiedResponse) : R :=
  computeMedian (map price validResponses).

Definition roundStdDev (validResponses : list QualifiedResponse) : R :=
  let prices := map price validResponses in
  computeStandardDeviation prices (computeMean prices).

(** The three sets of a round as the specification describes them: the
    valid responses of Stage A, and among them the outliers and the
    qualified responses of Stage B. *)
Definition validSet (db : DB) (responses : list Submission) :
    list QualifiedResponse :=
  map toResponse (filter (qualifies db) responses).

Definition outlierSet (validResponses : list QualifiedResponse) :
    list QualifiedResponse :=
  filter (isOutlier (roundMedian validResponses) (roundStdDev validResponses))
    validResponses.

Definition qualifiedSet (validResponses : list QualifiedResponse) :
    list QualifiedResponse :=
  filter (fun res => ~ isOutlier (roundMedian validResponses)
                         (roundStdDev validResponses) res)
    validResponses.

(** The calls on the store made by the two loops of a round. *)
Definition stageA_ops (responses : list Submission) : list Op :=
  map (fun res => OpGet (sub_peerId res)) responses.

Definition stageB_ops (validResponses : list QualifiedResponse) : list Op :=
  map (fun res => OpRecord (peerId res)) (outlierSet validResponses).

(** The squared differences of [computeStandardDeviation]. *)
Definition sqDiffs (mean : R) (prices : list R) : list R :=
  map (fun price => (price - mean) ^ 2) prices.

(** ** Test data of the repository *)

Definition testResponses : list QualifiedResponse :=
  [mkResponse "p1" 100 10 0; mkResponse "p2" 110 20 0;
   mkResponse "p3" 120 50 0; mkResponse "p4" 130 30 0].

Definition sybilSubmissions : list Submission :=
  [mkSubmission "test_sybil" 64200 50].

Definition outlierSubmissions : list Submission :=
  [mkSubmission "peer_1" 100 400; mkSubmission "peer_2" 101 400;
   mkSubmission "peer_3" 100 400; mkSubmission "peer_4" 99 400;
   mkSubmission "malicious" 500 400].

Definition blacklistSubmissions : list Submission :=
  [mkSubmission "peer_a" 100 400; mkSubmission "peer_b" 100 400;
   mkSubmission "peer_c" 100 400; mkSubmission "bad_actor" 9999 10000].

(** The table after three offenses of "bad_actor". *)
Definition blacklistDb : DB :=
  run ∅ [OpRecord "bad_actor"; OpRecord "bad_actor"; OpRecord "bad_actor"].






(** The table after a sequence of rounds, each on its own submissions. *)
Definition runRounds (db : DB) (rounds : list (list Submission)) : DB :=
  foldl (fun db responses => (processOracleConsensus db responses).1) db rounds.


(** * The program over the arithmetic of its numbers

    The definitions above take the numbers of the program as exact reals.
    The module [Numeric] is the same program over a type of numbers with its
    operations left open: nothing is assumed of them, so what is proved of
    these definitions holds of exact arithmetic ([Number_R]) and of the
    binary64 arithmetic of the language ([Number_float]: rounding, signed
    zeros, infinities and NaN) alike.  The store and the slashing engine do
    not compute with numbers and are shared with the definitions above. *)

Module Numeric.

(** The operations the program applies to numbers. *)
Class Number (num : Type) := {
  nofZ : Z -> num;              (* the literals 0, 2, 100; an array length *)
  nadd : num -> num -> num;     (* +  *)
  nsub : num -> num -> num;     (* -  *)
  nmul : num -> num -> num;     (* the product [2 * stdDev] of the documentation *)
  ndiv : num -> num -> num;     (* /  *)
  npow2 : num -> num;           (* Math.pow (_, 2) *)
  nsqrt : num -> num;           (* Math.sqrt *)
  nabs : num -> num;            (* Math.abs *)
  ngt : num -> num -> bool;     (* >  *)
  nge : num -> num -> bool;     (* >= *)
  nlt : num -> num -> bool;     (* <  *)
  neq : num -> num -> bool      (* === *)
}.

(** Exact arithmetic. *)
#[global] Instance Number_R : Number R := {|
  nofZ := IZR;
  nadd := Rplus;
  nsub := Rminus;
  nmul := Rmult;
  ndiv := Rdiv;
  npow2 := fun x => x ^ 2;
  nsqrt := sqrt;
  nabs := Rabs;
  ngt := fun x y => bool_decide (x > y);
  nge := fun x y => bool_decide (x >= y);
  nlt := fun x y => bool_decide (x < y);
  neq := fun x y => bool_decide (x = y)
|}.

(** The number of an integer in binary64 (exact below 2^53). *)
Definition float_ofZ (z : Z) : float :=
  match z with
  | Z0 => 0%float
  | Zpos _ => PrimFloat.of_uint63 (Uint63.of_Z z)
  | Zneg p => PrimFloat.opp (PrimFloat.of_uint63 (Uint63.of_Z (Zpos p)))
  end.

(** Binary64 arithmetic, round to nearest even, with the comparisons of the
    language (false on NaN, [0 === -0]).  [Math.pow (x, 2)] is taken as the
    rounded product [x * x]. *)
#[global] Instance Number_float : Number float := {|
  nofZ := float_ofZ;
  nadd := PrimFloat.add;
  nsub := PrimFloat.sub;
  nmul := PrimFloat.mul;
  ndiv := PrimFloat.div;
  npow2 := fun x => PrimFloat.mul x x;
  nsqrt := PrimFloat.sqrt;
  nabs := PrimFloat.abs;
  ngt := fun x y => PrimFloat.ltb y x;
  nge := fun x y => PrimFloat.leb y x;
  nlt := fun x y => PrimFloat.ltb x y;
  neq := fun x y => PrimFloat.eqb x y
|}.

(** An incoming message [{ peerId, price, balance }], a response that
    passed the identity check [{ peerId, price, weight, balance }], the
    returned object and the way a call ends. *)
Record Submission (num : Type) := mkSubmission {
  sub_peerId : string;
  sub_price : num;
  sub_balance : num
}.

Record QualifiedResponse (num : Type) := mkResponse {
  peerId : string;
  price : num;
  weight : num;
  balance : num
}.

Record ConsensusResult (num : Type) := mkResult {
  finalPrice : num;
  participants : nat;
  totalWeight : num
}.

Inductive Completion (num : Type) :=
  | Throw (message : string)
  | Return (result : ConsensusResult num).

Arguments mkSubmission {num}.
Arguments sub_peerId {num}.
Arguments sub_price {num}.
Arguments sub_balance {num}.
Arguments mkResponse {num}.
Arguments peerId {num}.
Arguments price {num}.
Arguments weight {num}.
Arguments balance {num}.
Arguments mkResult {num}.
Arguments finalPrice {num}.
Arguments participants {num}.
Arguments totalWeight {num}.
Arguments Throw {num}.
Arguments Return {num}.

Section Program.
Context {num : Type} `{Number num}.

Definition MINIMUM_STAKE_THRESHOLD : num := nofZ 100.

(** [Array.prototype.sort (compareFn)], stable: [x], which stood before
    every element of [l], goes in front of the first element it does not
    compare greater than. *)
Fixpoint insert {A : Type} (compareFn : A -> A -> num) (x : A) (l : list A) :
    list A :=
  match l with
  | [] => [x]
  | y :: l' =>
      if ngt (compareFn x y) (nofZ 0) then y :: insert compareFn x l'
      else x :: y :: l'
  end.

Fixpoint sort {A : Type} (compareFn : A -> A -> num) (l : list A) : list A :=
  match l with
  | [] => []
  | x :: l' => insert compareFn x (sort compareFn l')
  end.

(** The comparison the sort makes of two elements: [compareFn (a, b) > 0]. *)
Definition above {A : Type} (compareFn : A -> A -> num) (a b : A) : bool :=
  ngt (compareFn a b) (nofZ 0).

(** Whether the comparisons of [compareFn] on the elements of [l] are those
    of an order: never [a] above [b] and [b] above [a], and from [a] not
    above [b] and [b] not above [c], [a] not above [c]. *)
Definition consistent {A : Type} (compareFn : A -> A -> num) (l : list A) :
    bool :=
  forallb (fun a =>
    forallb (fun b =>
      (negb (above compareFn a b) || negb (above compareFn b a)) &&
      forallb (fun c =>
        above compareFn a b || above compareFn b c ||
        negb (above compareFn a c)) l) l) l.


(** [arr.reduce ((a, b) => a + b, 0)] *)
Definition sum (values : list num) : num := foldl nadd (nofZ 0) values.

Definition computeMedian (prices : list num) : num :=
  if decide (length prices = 0%nat) then nofZ 0
  else
    let sortedPrices := sort (fun a b => nsub a b) prices in
    let mid := (length sortedPrices / 2)%nat in
    if decide (length sortedPrices mod 2 = 0)%nat then
      ndiv (nadd (nth (mid - 1) sortedPrices (nofZ 0))
              (nth mid sortedPrices (nofZ 0)))
        (nofZ 2)
    else nth mid sortedPrices (nofZ 0).

Definition computeStandardDeviation (prices : list num) (mean : num) : num :=
  if decide (length prices = 0%nat) then nofZ 0
  else
    let squaredDiffs := map (fun price => npow2 (nsub price mean)) prices in
    let avgSquaredDiff :=
      ndiv (sum squaredDiffs) (nofZ (Z.of_nat (length prices))) in
    nsqrt avgSquaredDiff.

Definition computeMean (prices : list num) : num :=
  if decide (length prices = 0%nat) then nofZ 0
  else ndiv (sum prices) (nofZ (Z.of_nat (length prices))).

(** The running [cumulativeWeight] of the loop after the responses of
    [responses], started at [start]. *)
Definition cumulate (start : num) (responses : list (QualifiedResponse num)) :
    num :=
  foldl (fun sum res => nadd sum (weight res)) start responses.

(** The [for ... of] loop of [calculateWeightedMedian]: [Some price] when
    it returns from inside, [None] when it runs to the end. *)
Fixpoint scanWeights (sortedResponses : list (QualifiedResponse num))
    (targetWeight cumulativeWeight : num) : option num :=
  match sortedResponses with
  | [] => None
  | response :: rest =>
      let cumulativeWeight := nadd cumulativeWeight (weight response) in
      if nge cumulativeWeight targetWeight then Some (price response)
      else scanWeights rest targetWeight cumulativeWeight
  end.

Definition sortByPrice (responses : list (QualifiedResponse num)) :
    list (QualifiedResponse num) :=
  sort (fun a b => nsub (price a) (price b)) responses.

Definition calculateWeightedMedian
    (qualifiedResponses : list (QualifiedResponse num)) : num :=
  if decide (length qualifiedResponses = 0%nat) then nofZ 0
  else
    let sortedResponses := sortByPrice qualifiedResponses in
    let totalWeight := cumulate (nofZ 0) sortedResponses in
    let targetWeight := ndiv totalWeight (nofZ 2) in
    match scanWeights sortedResponses targetWeight (nofZ 0) with
    | Some p => p
    | None =>
        match sortedResponses !! (length sortedResponses - 1)%nat with
        | Some response => price response
        | None => nofZ 0
        end
    end.

(** Loop 1, "Sybil Defense & Identity Check". *)
Fixpoint identityCheck (db : DB) (responses : list (Submission num))
    (validResponses : list (QualifiedResponse num)) :
    DB * list (QualifiedResponse num) :=
  match responses with
  | [] => (db, validResponses)
  | res :: rest =>
      let '(db, slashingRecord) := getSlashingRecord db (sub_peerId res) in
      if blacklisted slashingRecord then identityCheck db rest validResponses
      else if nlt (sub_balance res) MINIMUM_STAKE_THRESHOLD then
        identityCheck db rest validResponses
      else
        let weight := nsqrt (sub_balance res) in
        identityCheck db rest
          (validResponses ++
             [mkResponse (sub_peerId res) (sub_price res) weight
                (sub_balance res)])
  end.

Definition zScore (medianPrice stdDev : num) (res : QualifiedResponse num) :
    num :=
  let diff := nabs (nsub (price res) medianPrice) in
  if neq stdDev (nofZ 0) then nofZ 0 else ndiv diff stdDev.

(** Loop 2, "Anti-Outlier Filter". *)
Fixpoint outlierFilter (medianPrice stdDev : num) (db : DB)
    (validResponses qualifiedForConsensus : list (QualifiedResponse num)) :
    DB * list (QualifiedResponse num) :=
  match validResponses with
  | [] => (db, qualifiedForConsensus)
  | res :: rest =>
      if ngt (zScore medianPrice stdDev res) (nofZ 2) then
        outlierFilter medianPrice stdDev (recordSlashingOffense db (peerId res))
          rest qualifiedForConsensus
      else
        outlierFilter medianPrice stdDev db rest (qualifiedForConsensus ++ [res])
  end.

Definition processOracleConsensus (db : DB) (responses : list (Submission num)) :
    DB * Completion num :=
  let '(db, validResponses) := identityCheck db responses [] in
  if decide (length validResponses = 0%nat) then
    (db, Throw NoQualifiedResponses)
  else
    let prices := map price validResponses in
    let medianPrice := computeMedian prices in
    let meanPrice := computeMean prices in
    let stdDev := computeStandardDeviation prices meanPrice in
    let '(db, qualifiedForConsensus) :=
      outlierFilter medianPrice stdDev db validResponses [] in
    if decide (length qualifiedForConsensus = 0%nat) then
      (db, Throw NoResponsesPassedOutlierFilter)
    else
      let finalPrice := calculateWeightedMedian qualifiedForConsensus in
      (db, Return (mkResult finalPrice (length qualifiedForConsensus)
                     (cumulate (nofZ 0) qualifiedForConsensus))).

End Program.

(** ** Test data in binary64 *)

(** The responses of the repository's weighted-median test. *)
Definition testResponses : list (QualifiedResponse float) :=
  [mkResponse "p1" 100 10 0; mkResponse "p2" 110 20 0;
   mkResponse "p3" 120 50 0; mkResponse "p4" 130 30 0]%float.

(** Two responses whose weights add up to less than nothing. *)
Definition negativeWeights : list (QualifiedResponse float) :=
  [mkResponse "a" 1 (-3) 0; mkResponse "b" 2 1 0]%float.

(** Six responses of stake 103, hence of weight [Math.sqrt (103)] each. *)
Definition equalStakes : list (QualifiedResponse float) :=
  map (fun p => mkResponse "peer" p (PrimFloat.sqrt 103) 103)%float
    [100; 101; 102; 103; 104; 105]%float.

(** The submissions of the repository's outlier test. *)
Definition outlierSubmissions : list (Submission float) :=
  [mkSubmission "peer_1" 100 400; mkSubmission "peer_2" 101 400;
   mkSubmission "peer_3" 100 400; mkSubmission "peer_4" 99 400;
   mkSubmission "malicious" 500 400]%float.


End Numeric.

(** ** The first embedding in the second

    A submission, a response and a completion of the definitions on exact
    reals, as those of [Numeric] at [Number_R]. *)

Definition exactSubmission (res : Submission) : Numeric.Submission R :=
  Numeric.mkSubmission (sub_peerId res) (sub_price res) (sub_balance res).

Definition exactResponse (res : QualifiedResponse) :
    Numeric.QualifiedResponse R :=
  Numeric.mkResponse (peerId res) (price res) (weight res) (balance res).

Definition exactCompletion (completion : Completion) : Numeric.Completion R :=
  match completion with
  | Throw message => Numeric.Throw message
  | Return result =>
      Numeric.Return
        (Numeric.mkResult (finalPrice result) (participants result)
           (totalWeight result))
  end.

(** * Properties *)

(** ** Sorting *)

Section SortFacts.
Context {A : Type} (compareFn : A -> A -> R).

Lemma js_insert_perm x l : js_insert compareFn x l ≡ₚ x :: l.
Proof.
  induction l as [|y l IH]; simpl; [done|].
  case_decide; [|done].
  rewrite IH. apply Permutation_swap.
Qed.

Lemma js_sort_perm l : js_sort compareFn l ≡ₚ l.
Proof.
  induction l as [|x l IH]; simpl; [done|].
  by rewrite js_insert_perm, IH.
Qed.

Lemma js_sort_length l : length (js_sort compareFn l) = length l.
Proof. by rewrite js_sort_perm. Qed.
End SortFacts.

Section SortByKey.
Context {A : Type} (key : A -> R).

Let byKey (a b : A) : R := key a - key b.
Let le_key (a b : A) : Prop := key a <= key b.

Lemma js_insert_sorted x l :
  StronglySorted le_key l -> StronglySorted le_key (js_insert byKey x l).
Proof.
  induction 1 as [|y l Hl IH Hy]; simpl.
  - repeat constructor.
  - case_decide as Hc; unfold byKey in Hc.
    + constructor; [done|].
      rewrite js_insert_perm. constructor; [unfold le_key; lra | done].
    + constructor; [by constructor|].
      constructor; [unfold le_key; lra|].
      eapply Forall_impl; [exact Hy|]. unfold le_key. intros z Hz. lra.
Qed.

Lemma js_sort_sorted l : StronglySorted le_key (js_sort byKey l).
Proof.
  induction l as [|x l IH]; simpl; [constructor|].
  by apply js_insert_sorted.
Qed.

End SortByKey.

(** ** Sums *)

Lemma foldl_Rplus_acc (a : R) (l : list R) :
  foldl (fun a b => a + b) a l = a + sum l.
Proof.
  unfold sum. revert a. induction l as [|x l IH]; intros a; simpl; [lra|].
  rewrite (IH (a + x)), (IH (0 + x)). lra.
Qed.


Lemma sum_cons x l : sum (x :: l) = x + sum l.
Proof. unfold sum at 1. simpl. rewrite foldl_Rplus_acc. lra. Qed.


Lemma sum_perm l1 l2 : l1 ≡ₚ l2 -> sum l1 = sum l2.
Proof.
  induction 1; rewrite ?sum_cons; try lra.
Qed.

Lemma sumWeights_sum l : sumWeights l = sum (map weight l).
Proof.
  unfold sumWeights, sum. generalize 0.
  induction l as [|r l IH]; intros a; simpl; [done|]. apply IH.
Qed.

Lemma sumWeights_nil : sumWeights [] = 0.
Proof. done. Qed.

Lemma sumWeights_cons r l : sumWeights (r :: l) = weight r + sumWeights l.
Proof. rewrite !sumWeights_sum. simpl. apply sum_cons. Qed.

Lemma sumWeights_perm l1 l2 : l1 ≡ₚ l2 -> sumWeights l1 = sumWeights l2.
Proof. intros H. rewrite !sumWeights_sum. apply sum_perm. by rewrite H. Qed.

(** ** Evaluating the program on given numbers *)

Ltac decide_numbers :=
  repeat match goal with
  | |- context [decide ?P] =>
      first [ rewrite (decide_True (P:=P)) by (lra || lia)
            | rewrite (decide_False (P:=P)) by (lra || lia) ]
  end.

Ltac run_numbers := repeat (progress (simpl; decide_numbers)).

Example weightedMedian_test :
  calculateWeightedMedian
    [mkResponse "p1" 100 10 0; mkResponse "p2" 110 20 0;
     mkResponse "p3" 120 50 0; mkResponse "p4" 130 30 0] = 120.
Proof.
  unfold calculateWeightedMedian, sortByPrice, sumWeights.
  run_numbers. done.
Qed.

(** ** The scan of [calculateWeightedMedian] *)

Lemma scanWeights_Some l t c p :
  scanWeights l t c = Some p ->
  exists pre r post,
    l = pre ++ r :: post /\ p = price r /\
    (forall k, (1 <= k <= length pre)%nat -> c + sumWeights (take k l) < t) /\
    t <= c + sumWeights (take (S (length pre)) l).
Proof.
  revert c. induction l as [|r0 l IH]; intros c; simpl; [done|].
  case_decide as Hc.
  - intros [= <-]. exists [], r0, l. simpl.
    rewrite take_0, sumWeights_cons, sumWeights_nil.
    repeat split; [intros k Hk; lia | lra].
  - intros Hs. destruct (IH _ Hs) as (pre & r & post & -> & -> & Hlt & Hge).
    exists (r0 :: pre), r, post. repeat split.
    + intros k Hk. destruct k as [|k]; [lia|]. simpl in *.
      rewrite sumWeights_cons.
      destruct (decide (k = 0%nat)) as [->|Hk0].
      * rewrite take_0, sumWeights_nil. lra.
      * specialize (Hlt k ltac:(lia)). lra.
    + simpl in *. rewrite sumWeights_cons. lra.
Qed.

Lemma sortByPrice_perm rs : sortByPrice rs ≡ₚ rs.
Proof. apply js_sort_perm. Qed.

Lemma sortByPrice_sorted rs :
  StronglySorted (fun a b => price a <= price b) (sortByPrice rs).
Proof. apply (js_sort_sorted price). Qed.

Lemma sortByPrice_length rs : length (sortByPrice rs) = length rs.
Proof. apply js_sort_length. Qed.

Lemma calculateWeightedMedian_unfold rs :
  rs <> [] ->
  calculateWeightedMedian rs =
  match scanWeights (sortByPrice rs) (sumWeights rs / 2) 0 with
  | Some p => p
  | None =>
      match last (sortByPrice rs) with
      | Some response => price response
      | None => 0
      end
  end.
Proof.
  intros Hne. unfold calculateWeightedMedian.
  rewrite decide_False by (by destruct rs).
  cbv zeta. rewrite (sumWeights_perm _ _ (sortByPrice_perm rs)).
  by rewrite last_lookup, Nat.sub_1_r.
Qed.

(** ** The weighted median *)

(** C9.  For every non-empty list of responses, the value returned by
    [calculateWeightedMedian] is the price of a response of the list. *)
Theorem calculateWeightedMedian_price_of_input (rs : list QualifiedResponse) :
  rs <> [] -> exists r, r ∈ rs /\ calculateWeightedMedian rs = price r.
Proof.
  intros Hne. rewrite calculateWeightedMedian_unfold by done.
  destruct (scanWeights _ _ _) as [p|] eqn:Hscan.
  - destruct (scanWeights_Some _ _ _ _ Hscan) as (pre & r & post & Hs & -> & _).
    exists r. split; [|done].
    rewrite <- (sortByPrice_perm rs), Hs. set_solver.
  - destruct (last (sortByPrice rs)) as [r|] eqn:Hlast.
    + exists r. split; [|done].
      rewrite <- (sortByPrice_perm rs). by eapply last_Some_elem_of.
    + apply last_None in Hlast.
      pose proof (sortByPrice_length rs) as Hlen. rewrite Hlast in Hlen.
      by destruct rs.
Qed.

Lemma calculateWeightedMedian_price_of_input_witness :
  exists r, r ∈ testResponses /\ calculateWeightedMedian testResponses = price r.
Proof. apply calculateWeightedMedian_price_of_input. done. Defined.

(** C5, as stated, fails: a non-empty list of total weight 0 does not give
    0 but a price of the list. *)
Lemma calculateWeightedMedian_zero_total_counterexample :
  sumWeights [mkResponse "p1" 5 0 0] = 0 /\
  calculateWeightedMedian [mkResponse "p1" 5 0 0] <> 0.
Proof.
  split; [unfold sumWeights; simpl; lra|].
  unfold calculateWeightedMedian, sortByPrice, sumWeights.
  run_numbers. lra.
Qed.

(** C5, amended.  [calculateWeightedMedian] returns 0 when its input list
    is empty.  It has no guard on the total weight: on a non-empty list of
    non-negative weights whose total is 0 it returns the lowest price of
    the list. *)
Theorem calculateWeightedMedian_empty_or_zero_total :
  calculateWeightedMedian [] = 0 /\
  forall rs : list QualifiedResponse,
    rs <> [] -> Forall (fun r => 0 <= weight r) rs -> sumWeights rs = 0 ->
    exists r,
      r ∈ rs /\ Forall (fun r' => price r <= price r') rs /\
      calculateWeightedMedian rs = price r.
Proof.
  split.
  { unfold calculateWeightedMedian. by rewrite decide_True. }
  intros rs Hne Hw Htot.
  rewrite calculateWeightedMedian_unfold by done.
  pose proof (sortByPrice_perm rs) as Hperm.
  pose proof (sortByPrice_sorted rs) as Hsorted.
  rewrite <- Hperm in Hw.
  enough (exists r,
    r ∈ sortByPrice rs /\
    Forall (fun r' => price r <= price r') (sortByPrice rs) /\
    match scanWeights (sortByPrice rs) (sumWeights rs / 2) 0 with
    | Some p => p
    | None => match last (sortByPrice rs) with
              | Some response => price response
              | None => 0
              end
    end = price r) as (r & Hin & Hall & Heq).
  { exists r. rewrite Hperm in Hin, Hall. done. }
  destruct (sortByPrice rs) as [|r0 l].
  { by apply Permutation_nil in Hperm. }
  apply StronglySorted_inv in Hsorted as [_ Hall].
  apply Forall_cons in Hw as [Hr0 _].
  exists r0. split; [apply list_elem_of_here|]. split.
  - constructor; [lra | done].
  - simpl. rewrite decide_True; [done|]. rewrite Htot. lra.
Qed.

Lemma calculateWeightedMedian_empty_or_zero_total_witness :
  exists r,
    r ∈ [mkResponse "p1" 5 0 0] /\
    Forall (fun r' => price r <= price r') [mkResponse "p1" 5 0 0] /\
    calculateWeightedMedian [mkResponse "p1" 5 0 0] = price r.
Proof.
  apply (proj2 calculateWeightedMedian_empty_or_zero_total).
  - done.
  - apply Forall_cons. split; [simpl; lra | apply Forall_nil_2].
  - unfold sumWeights. simpl. lra.
Defined.

(** ** Equal weights *)

(** C6, as stated, fails on an even number of responses whose two middle
    prices differ. *)
Lemma calculateWeightedMedian_equal_weights_counterexample :
  Forall (fun r => weight r = 1) [mkResponse "a" 1 1 1; mkResponse "b" 3 1 1] /\
  calculateWeightedMedian [mkResponse "a" 1 1 1; mkResponse "b" 3 1 1] = 1 /\
  computeMedian [1; 3] = 2.
Proof.
  split; [by repeat constructor|]. split.
  - unfold calculateWeightedMedian, sortByPrice, sumWeights.
    run_numbers. done.
  - unfold computeMedian. run_numbers. lra.
Qed.

(** ** The reputation store *)

Lemma stmtInsert_lookup db q p :
  stmtInsert db q !! p =
  match db !! p with
  | Some row => Some row
  | None => if decide (p = q) then Some (mkRow 0 0) else None
  end.
Proof.
  unfold stmtInsert. destruct (db !! q) eqn:Hq.
  - destruct (db !! p) eqn:Hp; [done|]. case_decide; congruence.
  - destruct (decide (p = q)) as [->|Hne].
    + by rewrite lookup_insert_eq, Hq.
    + rewrite lookup_insert_ne by done. by destruct (db !! p).
Qed.

Lemma getSlashingRecord_fst db p : (getSlashingRecord db p).1 = stmtInsert db p.
Proof.
  unfold getSlashingRecord, stmtGet, stmtInsert. by destruct (db !! p).
Qed.

Lemma getSlashingRecord_snd db p :
  (getSlashingRecord db p).2 =
  match db !! p with
  | Some row =>
      mkRecord (row_offenses row) (bool_decide (row_blacklisted row = 1%Z))
  | None => mkRecord 0 false
  end.
Proof. unfold getSlashingRecord, stmtGet. by destruct (db !! p). Qed.

(** Reading a record does not change what any later read reports. *)
Lemma getSlashingRecord_observe db q p :
  (getSlashingRecord (getSlashingRecord db q).1 p).2 = (getSlashingRecord db p).2.
Proof.
  rewrite getSlashingRecord_fst, !getSlashingRecord_snd, stmtInsert_lookup.
  destruct (db !! p); [done|]. by case_decide.
Qed.

Lemma blacklistedOf_known db p : blacklistedOf db p = true -> is_Some (db !! p).
Proof.
  unfold blacklistedOf. rewrite getSlashingRecord_snd.
  destruct (db !! p); [eauto | done].
Qed.

Lemma recordSlashingOffense_lookup db p q :
  recordSlashingOffense db p !! q =
  if decide (q = p) then
    Some (mkRow (offensesOf db p + 1)
            (if decide (offensesOf db p + 1 >= SLASHING_THRESHOLD)%Z then 1
             else if blacklistedOf db p then 1 else 0)%Z)
  else db !! q.
Proof.
  unfold recordSlashingOffense, offensesOf, blacklistedOf.
  destruct (getSlashingRecord db p) as [db1 record] eqn:Hget.
  assert (db1 = stmtInsert db p) as ->
    by (by rewrite <- getSlashingRecord_fst, Hget).
  simpl. unfold stmtUpdate.
  assert (is_Some (stmtInsert db p !! p)) as [row Hrow].
  { rewrite stmtInsert_lookup. destruct (db !! p); [eauto|].
    rewrite decide_True by done. eauto. }
  rewrite Hrow. destruct (decide (q = p)) as [->|Hq].
  - rewrite lookup_insert_eq. f_equal. f_equal.
    by repeat case_decide.
  - rewrite lookup_insert_ne by done. rewrite stmtInsert_lookup.
    destruct (db !! q); [done|]. by rewrite decide_False.
Qed.

Lemma offensesOf_record db p q :
  offensesOf (recordSlashingOffense db p) q =
  if decide (q = p) then (offensesOf db p + 1)%Z else offensesOf db q.
Proof.
  unfold offensesOf at 1. rewrite getSlashingRecord_snd.
  rewrite recordSlashingOffense_lookup. case_decide; [done|].
  unfold offensesOf. by rewrite getSlashingRecord_snd.
Qed.

Lemma blacklistedOf_record db p q :
  blacklistedOf (recordSlashingOffense db p) q =
  if decide (q = p) then
    bool_decide (offensesOf db p + 1 >= SLASHING_THRESHOLD)%Z
    || blacklistedOf db p
  else blacklistedOf db q.
Proof.
  unfold blacklistedOf at 1. rewrite getSlashingRecord_snd.
  rewrite recordSlashingOffense_lookup. case_decide.
  - simpl. destruct (decide (offensesOf db p + 1 >= SLASHING_THRESHOLD)%Z).
    + by rewrite (bool_decide_true (_ >= _)%Z).
    + rewrite (bool_decide_false (_ >= _)%Z) by done. simpl.
      by destruct (blacklistedOf db p).
  - unfold blacklistedOf. by rewrite getSlashingRecord_snd.
Qed.

Lemma offensesOf_get db q p :
  offensesOf (getSlashingRecord db q).1 p = offensesOf db p.
Proof. unfold offensesOf. by rewrite getSlashingRecord_observe. Qed.

Lemma blacklistedOf_get db q p :
  blacklistedOf (getSlashingRecord db q).1 p = blacklistedOf db p.
Proof. unfold blacklistedOf. by rewrite getSlashingRecord_observe. Qed.

(** ** The two loops of a round *)

Lemma run_snoc db ops op : run db (ops ++ [op]) = step (run db ops) op.
Proof. unfold run. by rewrite foldl_app. Qed.

Lemma run_app db ops1 ops2 : run db (ops1 ++ ops2) = run (run db ops1) ops2.
Proof. unfold run. by rewrite foldl_app. Qed.

Lemma qualifies_get db q res :
  qualifies (getSlashingRecord db q).1 res <-> qualifies db res.
Proof. unfold qualifies. by rewrite blacklistedOf_get. Qed.

Lemma identityCheck_spec db responses validResponses :
  identityCheck db responses validResponses =
  (run db (map (fun res => OpGet (sub_peerId res)) responses),
   validResponses ++ map toResponse (filter (qualifies db) responses)).
Proof.
  revert db validResponses.
  induction responses as [|res rest IH]; intros db acc; simpl.
  { by rewrite app_nil_r. }
  destruct (getSlashingRecord db (sub_peerId res)) as [db1 record] eqn:Hget.
  assert (db1 = (getSlashingRecord db (sub_peerId res)).1) as Hdb1
    by (by rewrite Hget).
  assert (blacklisted record = blacklistedOf db (sub_peerId res)) as Hbl
    by (unfold blacklistedOf; by rewrite Hget).
  assert (filter (qualifies db1) rest = filter (qualifies db) rest) as Hf.
  { apply list_filter_iff. intros x. subst db1. apply qualifies_get. }
  rewrite filter_cons. unfold qualifies at 2.
  destruct (blacklisted record) eqn:Hb.
  - rewrite IH, Hf. rewrite decide_False; [by subst db1|].
    intros [? _]. congruence.
  - destruct (decide (sub_balance res < MINIMUM_STAKE_THRESHOLD)) as [Hlow|Hok].
    + rewrite IH, Hf. rewrite decide_False; [by subst db1|]. by intros [_ ?].
    + rewrite IH, Hf. rewrite decide_True by done.
      subst db1. simpl. by rewrite <- app_assoc.
Qed.

Lemma zScore_outlier medianPrice stdDev res :
  zScore medianPrice stdDev res > 2 <-> isOutlier medianPrice stdDev res.
Proof.
  unfold zScore, isOutlier.
  pose proof (Rabs_pos (price res - medianPrice)) as Hpos.
  set (diff := Rabs (price res - medianPrice)) in *.
  case_decide as Hsd; [lra|].
  destruct (Rlt_dec 0 stdDev) as [Hlt|Hge].
  - split.
    + intros Hz. split; [done|].
      apply (Rmult_gt_compat_r stdDev) in Hz; [|lra].
      unfold Rdiv in Hz. rewrite Rmult_assoc, Rinv_l, Rmult_1_r in Hz by done.
      lra.
    + intros [_ Hd]. unfold Rdiv.
      apply (Rmult_gt_reg_r stdDev); [lra|].
      rewrite Rmult_assoc, Rinv_l, Rmult_1_r by done. lra.
  - split; [|lra]. intros Hz. exfalso.
    assert (/ stdDev < 0) as Hinv by (apply Rinv_lt_0_compat; lra).
    unfold Rdiv in Hz. nra.
Qed.

Lemma outlierFilter_spec medianPrice stdDev db validResponses qualified :
  outlierFilter medianPrice stdDev db validResponses qualified =
  (run db (map (fun res => OpRecord (peerId res))
             (filter (isOutlier medianPrice stdDev) validResponses)),
   qualified ++
   filter (fun res => ~ isOutlier medianPrice stdDev res) validResponses).
Proof.
  revert db qualified.
  induction validResponses as [|res rest IH]; intros db acc; simpl.
  { by rewrite app_nil_r. }
  rewrite !filter_cons.
  case_decide as Hz; rewrite zScore_outlier in Hz.
  - rewrite IH. rewrite decide_True by done.
    rewrite decide_False by tauto. done.
  - rewrite IH. rewrite decide_False by done.
    rewrite decide_True by done. by rewrite <- app_assoc.
Qed.

Lemma length_zero_iff_nil' {A} (l : list A) : length l = 0%nat <-> l = [].
Proof. by destruct l. Qed.

Lemma filterAndAggregate_spec medianPrice stdDev db validResponses :
  let outliers := filter (isOutlier medianPrice stdDev) validResponses in
  let qualified :=
    filter (fun res => ~ isOutlier medianPrice stdDev res) validResponses in
  let db' := run db (map (fun res => OpRecord (peerId res)) outliers) in
  filterAndAggregate medianPrice stdDev db validResponses =
  if decide (qualified = []) then (db', Throw NoResponsesPassedOutlierFilter)
  else
    (db', Return (mkResult (calculateWeightedMedian qualified)
                    (length qualified) (sumWeights qualified))).
Proof.
  intros outliers qualified db'. unfold filterAndAggregate.
  rewrite outlierFilter_spec. cbn [app]. fold outliers qualified db'.
  destruct (decide (qualified = [])) as [Hq|Hq].
  { rewrite decide_True by by rewrite Hq. done. }
  by rewrite decide_False by by rewrite length_zero_iff_nil'.
Qed.

Lemma processOracleConsensus_spec db responses :
  let valid := validSet db responses in
  let db1 := run db (stageA_ops responses) in
  let db2 := run db1 (stageB_ops valid) in
  let qualified := qualifiedSet valid in
  processOracleConsensus db responses =
  if decide (valid = []) then (db1, Throw NoQualifiedResponses)
  else if decide (qualified = []) then
    (db2, Throw NoResponsesPassedOutlierFilter)
  else
    (db2, Return (mkResult (calculateWeightedMedian qualified)
                    (length qualified) (sumWeights qualified))).
Proof.
  intros valid db1 db2 qualified. unfold processOracleConsensus.
  rewrite identityCheck_spec. cbn [app]. fold (validSet db responses).
  fold valid. fold (stageA_ops responses). fold db1.
  destruct (decide (valid = [])) as [Hv|Hv].
  { rewrite decide_True by by rewrite Hv. done. }
  rewrite decide_False by by rewrite length_zero_iff_nil'.
  cbv zeta. by rewrite filterAndAggregate_spec.
Qed.

(** A round acts on the store as the sequence of its calls. *)
Lemma processOracleConsensus_run db responses :
  (processOracleConsensus db responses).1 =
  run db (stageA_ops responses ++
          if decide (validSet db responses = []) then []
          else stageB_ops (validSet db responses)).
Proof.
  rewrite processOracleConsensus_spec. cbv zeta. rewrite run_app.
  repeat case_decide; done.
Qed.

(** ** Offenses and the blacklist *)

Lemma offensesOf_step db op p :
  offensesOf (step db op) p =
  if decide (op = OpRecord p) then (offensesOf db p + 1)%Z else offensesOf db p.
Proof.
  destruct op as [q|q]; cbn [step].
  - rewrite offensesOf_get. by rewrite decide_False.
  - rewrite offensesOf_record.
    destruct (decide (p = q)) as [->|Hne].
    + by rewrite decide_True.
    + rewrite decide_False; [done|]. congruence.
Qed.

Lemma blacklistedOf_step db op p :
  blacklistedOf (step db op) p =
  if decide (op = OpRecord p) then
    bool_decide (offensesOf db p + 1 >= SLASHING_THRESHOLD)%Z
    || blacklistedOf db p
  else blacklistedOf db p.
Proof.
  destruct op as [q|q]; cbn [step].
  - rewrite blacklistedOf_get. by rewrite decide_False.
  - rewrite blacklistedOf_record.
    destruct (decide (p = q)) as [->|Hne].
    + by rewrite decide_True.
    + rewrite decide_False; [done|]. congruence.
Qed.

Lemma run_invariant ops p :
  (0 <= offensesOf (run ∅ ops) p)%Z /\
  blacklistedOf (run ∅ ops) p =
    bool_decide (SLASHING_THRESHOLD <= offensesOf (run ∅ ops) p)%Z.
Proof.
  induction ops as [|op ops IH] using rev_ind.
  - unfold run, offensesOf, blacklistedOf. simpl.
    rewrite !getSlashingRecord_snd, lookup_empty. simpl. split; [lia|done].
  - destruct IH as [Hpos Hbl]. rewrite run_snoc.
    rewrite offensesOf_step, blacklistedOf_step.
    destruct (decide (op = OpRecord p)); [|done]. split; [lia|]. rewrite Hbl.
    unfold SLASHING_THRESHOLD in *.
    repeat case_bool_decide; simpl; try done; lia.
Qed.

(** C3.  Along every sequence of store and slashing operations, started on
    the empty table, and for every peer: the offense count is never
    negative and never decreases; the peer is blacklisted exactly when its
    count has reached [SLASHING_THRESHOLD] (3); a blacklisted peer stays
    blacklisted; and the step on which its flag goes from false to true is
    the [recordSlashingOffense] call for that peer that takes the count
    from below the threshold to the threshold.  As the count never
    decreases, this happens once.  The effect of a round on the table is
    such a sequence of operations. *)
Theorem offenses_monotone_blacklist_once (ops : list Op) (p : string) :
  let db := run ∅ ops in
  (0 <= offensesOf db p)%Z /\
  blacklistedOf db p = bool_decide (SLASHING_THRESHOLD <= offensesOf db p)%Z /\
  (forall op,
     let db' := step db op in
     (offensesOf db p <= offensesOf db' p)%Z /\
     (blacklistedOf db p = true -> blacklistedOf db' p = true) /\
     (blacklistedOf db p = false /\ blacklistedOf db' p = true <->
      op = OpRecord p /\
      (offensesOf db p < SLASHING_THRESHOLD)%Z /\
      offensesOf db' p = SLASHING_THRESHOLD)) /\
  (forall responses, exists ops',
     (processOracleConsensus db responses).1 = run ∅ (ops ++ ops')).
Proof.
  intros db. destruct (run_invariant ops p) as [Hpos Hbl]. fold db in Hpos, Hbl.
  split; [done|]. split; [done|]. split.
  - intros op db'. subst db'.
    rewrite offensesOf_step, blacklistedOf_step, Hbl.
    unfold SLASHING_THRESHOLD in *.
    destruct (decide (op = OpRecord p)) as [Hop|Hop].
    + split; [lia|]. split.
      * intros ->. apply orb_true_r.
      * rewrite bool_decide_eq_false, orb_true_iff, !bool_decide_eq_true.
        split.
        -- intros [Hlow [Hnew|Hold]]; [|lia]. repeat split; [done|lia|lia].
        -- intros (_ & Hlow & Hnew). split; [lia|]. left. lia.
    + split; [lia|]. split; [done|]. split; [|tauto].
      intros [H1 H2]. congruence.
  - intros responses. eexists. rewrite processOracleConsensus_run.
    subst db. by rewrite <- run_app.
Qed.

Lemma offenses_monotone_blacklist_once_witness :
  blacklistedOf (run ∅ [OpRecord "x"; OpGet "y"; OpRecord "x"]) "x" = false /\
  blacklistedOf
    (step (run ∅ [OpRecord "x"; OpGet "y"; OpRecord "x"]) (OpRecord "x")) "x"
  = true.
Proof.
  apply (offenses_monotone_blacklist_once
           [OpRecord "x"; OpGet "y"; OpRecord "x"] "x").
  split; [reflexivity|]. split; [vm_compute; reflexivity | vm_compute; reflexivity].
Defined.

(** ** Stage A and the store *)

Lemma stageA_lookup db responses p :
  run db (stageA_ops responses) !! p =
  match db !! p with
  | Some row => Some row
  | None =>
      if decide (p ∈ map sub_peerId responses) then Some (mkRow 0 0) else None
  end.
Proof.
  revert db. induction responses as [|res rest IH]; intros db.
  - unfold stageA_ops, run. cbn [map foldl].
    destruct (db !! p); [done|]. rewrite decide_False; [done|].
    apply not_elem_of_nil.
  - unfold stageA_ops, run in *. cbn [map foldl step].
    rewrite IH, getSlashingRecord_fst, stmtInsert_lookup.
    destruct (db !! p); [done|].
    destruct (decide (p = sub_peerId res)) as [->|Hne].
    + rewrite (decide_True (P:=_ ∈ _ :: _)); [done|]. apply list_elem_of_here.
    + destruct (decide (p ∈ map sub_peerId rest)) as [Hin|Hnin].
      * rewrite decide_True; [done|]. by apply list_elem_of_further.
      * rewrite decide_False; [done|]. rewrite elem_of_cons. tauto.
Qed.

Lemma stageA_observe db responses p :
  (getSlashingRecord (run db (stageA_ops responses)) p).2 =
  (getSlashingRecord db p).2.
Proof.
  rewrite !getSlashingRecord_snd, stageA_lookup.
  destruct (db !! p); [done|]. by case_decide.
Qed.

(** The round of the repository's test "filters Sybil peers", on an empty
    table. *)
Lemma sybil_round :
  processOracleConsensus ∅ sybilSubmissions =
    (<["test_sybil" := mkRow 0 0]> ∅, Throw NoQualifiedResponses).
Proof.
  unfold processOracleConsensus, sybilSubmissions. cbn [identityCheck].
  unfold getSlashingRecord, stmtGet, stmtInsert. rewrite lookup_empty.
  cbn [sub_peerId sub_balance row_offenses row_blacklisted blacklisted].
  rewrite bool_decide_false by done.
  unfold MINIMUM_STAKE_THRESHOLD. rewrite decide_True by lra. done.
Qed.

(** C7, as stated, fails: the round of the repository's test that throws
    "No qualified responses" starts on an empty table and leaves a row. *)
Lemma noQualifiedResponses_store_counterexample :
  (processOracleConsensus ∅ sybilSubmissions).2 = Throw NoQualifiedResponses /\
  (processOracleConsensus ∅ sybilSubmissions).1 <> ∅.
Proof.
  rewrite sybil_round. split; [done|]. simpl.
  intros H. apply (f_equal (fun m : DB => m !! "test_sybil")) in H.
  by rewrite lookup_insert_eq, lookup_empty in H.
Qed.

(** C7, amended.  Whenever [processOracleConsensus] fails with "No
    qualified responses", no record has changed: [getSlashingRecord]
    reports for every peer what it reported before the call.  The table
    itself is the table before the call together with a default row
    (0, 0) for each submitted peer id that had no row. *)
Theorem noQualifiedResponses_store (db : DB) (responses : list Submission) :
  (processOracleConsensus db responses).2 = Throw NoQualifiedResponses ->
  let db' := (processOracleConsensus db responses).1 in
  (forall p, (getSlashingRecord db' p).2 = (getSlashingRecord db p).2) /\
  (forall p,
     db' !! p =
     match db !! p with
     | Some row => Some row
     | None =>
         if decide (p ∈ map sub_peerId responses) then Some (mkRow 0 0)
         else None
     end).
Proof.
  rewrite processOracleConsensus_spec. cbv zeta.
  destruct (decide (validSet db responses = [])) as [Hv|Hv]; simpl.
  - intros _. split; intros p; [apply stageA_observe | apply stageA_lookup].
  - case_decide; simpl; [|done]. intros [= Hmsg].
Qed.

Lemma noQualifiedResponses_store_witness :
  (getSlashingRecord (processOracleConsensus ∅ sybilSubmissions).1
     "test_sybil").2 =
  (getSlashingRecord ∅ "test_sybil").2.
Proof.
  apply (noQualifiedResponses_store ∅ sybilSubmissions).
  by rewrite sybil_round.
Defined.

(** ** Blacklisted peers *)

Lemma Forall_filter_keep {A} (P Q : A -> Prop) `{!forall x, Decision (Q x)}
    (l : list A) :
  Forall P l -> Forall P (filter Q l).
Proof.
  rewrite !Forall_forall. intros HP x Hx.
  apply list_elem_of_filter in Hx as [_ Hx]. auto.
Qed.

Lemma validSet_peer db responses r :
  r ∈ validSet db responses ->
  blacklistedOf db (peerId r) = false /\
  ~ balance r < MINIMUM_STAKE_THRESHOLD /\ weight r = sqrt (balance r).
Proof.
  unfold validSet. rewrite list_elem_of_fmap.
  intros (res & -> & Hin). apply list_elem_of_filter in Hin as [[Hb Hs] _].
  done.
Qed.

Lemma records_lookup_other db (rs : list QualifiedResponse) p :
  Forall (fun r => peerId r <> p) rs ->
  run db (map (fun res => OpRecord (peerId res)) rs) !! p = db !! p.
Proof.
  intros Hall. revert db.
  induction Hall as [|r rs Hr _ IH]; intros db; [done|].
  unfold run in *. cbn [map foldl step].
  rewrite IH, recordSlashingOffense_lookup. by rewrite decide_False.
Qed.

Lemma validSet_without db responses p :
  blacklistedOf db p = true ->
  validSet db (filter (fun res => sub_peerId res <> p) responses) =
  validSet db responses.
Proof.
  intros Hbl. unfold validSet. f_equal.
  rewrite list_filter_filter. apply list_filter_iff.
  intros res. unfold qualifies. split; [tauto|].
  intros [Hb Hs]. repeat split; [done|done|]. intros Heq. congruence.
Qed.

Lemma stageA_without db responses p :
  blacklistedOf db p = true ->
  run db (stageA_ops (filter (fun res => sub_peerId res <> p) responses)) =
  run db (stageA_ops responses).
Proof.
  intros Hbl. apply blacklistedOf_known in Hbl as [row Hrow].
  apply map_eq. intros k. rewrite !stageA_lookup.
  destruct (db !! k) eqn:Hk; [done|].
  assert (k <> p) as Hkp by congruence.
  assert (k ∈ map sub_peerId (filter (fun res => sub_peerId res <> p) responses)
          <-> k ∈ map sub_peerId responses) as Hiff.
  { rewrite !list_elem_of_fmap. split.
    - intros (res & -> & Hin). apply list_elem_of_filter in Hin as [_ Hin]. eauto.
    - intros (res & -> & Hin). exists res. split; [done|].
      by apply list_elem_of_filter. }
  destruct (decide (k ∈ map sub_peerId responses)).
  - by rewrite decide_True by tauto.
  - by rewrite decide_False by tauto.
Qed.

(** C4.  When the stored record of a peer is blacklisted, a round drops
    every submission of that peer in Stage A and records no offense for it:
    the round ends as the round without the submissions of that peer ends
    (same table, same error or same [finalPrice], [participants] and
    [totalWeight]), whatever their prices and balances; no valid and no
    qualified response is the peer's; and the peer's row is unchanged. *)
Theorem blacklisted_peer_excluded
    (db : DB) (responses : list Submission) (p : string) :
  blacklistedOf db p = true ->
  processOracleConsensus db responses =
    processOracleConsensus db
      (filter (fun res => sub_peerId res <> p) responses) /\
  Forall (fun r => peerId r <> p) (validSet db responses) /\
  Forall (fun r => peerId r <> p) (qualifiedSet (validSet db responses)) /\
  (processOracleConsensus db responses).1 !! p = db !! p.
Proof.
  intros Hbl.
  assert (Forall (fun r => peerId r <> p) (validSet db responses)) as Hvalid.
  { apply Forall_forall. intros r Hr Heq.
    apply validSet_peer in Hr as [Hb _]. congruence. }
  split; [|split; [done|split]].
  - rewrite !processOracleConsensus_spec. cbv zeta.
    by rewrite validSet_without, stageA_without.
  - unfold qualifiedSet. by apply Forall_filter_keep.
  - rewrite processOracleConsensus_run, run_app.
    assert (run db (stageA_ops responses) !! p = db !! p) as HA.
    { rewrite stageA_lookup.
      by destruct (blacklistedOf_known _ _ Hbl) as [row ->]. }
    case_decide; [done|].
    unfold stageB_ops. rewrite records_lookup_other; [done|].
    unfold outlierSet. by apply Forall_filter_keep.
Qed.

Lemma blacklisted_peer_excluded_witness :
  processOracleConsensus blacklistDb blacklistSubmissions =
    processOracleConsensus blacklistDb
      (filter (fun res => sub_peerId res <> "bad_actor") blacklistSubmissions) /\
  (processOracleConsensus blacklistDb blacklistSubmissions).1 !! "bad_actor"
  = Some (mkRow 3 1).
Proof.
  destruct (blacklisted_peer_excluded blacklistDb blacklistSubmissions
              "bad_actor") as (Heq & _ & _ & Hrow).
  - vm_compute. reflexivity.
  - split; [exact Heq|]. rewrite Hrow. vm_compute. reflexivity.
Defined.

(** ** Stage B *)






(** ** The median lies within one standard deviation of a price *)



Lemma sum_sqDiffs_cons mean x l :
  sum (sqDiffs mean (x :: l)) = (x - mean) ^ 2 + sum (sqDiffs mean l).
Proof. unfold sqDiffs. simpl. by rewrite sum_cons. Qed.



Lemma StronglySorted_middle (l1 l2 : list R) a :
  StronglySorted Rle (l1 ++ a :: l2) ->
  Forall (fun x => x <= a) l1 /\ Forall (fun y => a <= y) l2.
Proof.
  intros Hs. split.
  - apply Forall_forall. intros x Hx.
    apply (StronglySorted_app_1_elem_of _ _ _ _ _ Hs Hx). apply list_elem_of_here.
  - apply StronglySorted_app_1_r in Hs. by apply StronglySorted_inv in Hs as [_ ?].
Qed.

Lemma sortedPrices_sorted prices :
  StronglySorted Rle (js_sort (fun a b => a - b) prices).
Proof. apply (js_sort_sorted (fun x : R => x)). Qed.

(** An even number of sorted prices around its two middle elements. *)
Lemma even_split (s : list R) k :
  length s = (2 * k)%nat -> (1 <= k)%nat ->
  exists lo hi,
    s = lo ++ nth (k - 1) s 0 :: nth k s 0 :: hi /\
    length lo = (k - 1)%nat /\ length hi = (k - 1)%nat.
Proof.
  intros Hlen Hk.
  destruct (lookup_lt_is_Some_2 s (k - 1)) as [a Ha]; [lia|].
  destruct (lookup_lt_is_Some_2 s k) as [b Hb]; [lia|].
  rewrite !nth_lookup, Ha, Hb. simpl.
  exists (take (k - 1) s), (drop (S k) s).
  split; [|split].
  - rewrite <- (take_drop_middle s (k - 1) a Ha) at 1. f_equal. f_equal.
    replace (S (k - 1)) with k by lia.
    rewrite <- (take_drop_middle s k b Hb) at 1.
    rewrite drop_app_length'; [done|]. rewrite length_take. lia.
  - rewrite length_take. lia.
  - rewrite length_drop. lia.
Qed.




(** ** The rounds of the repository's tests *)






















(** ** The outlier filter on the round of the outlier test *)




(** * Further properties of the program *)

(** ** The weighted median returns a price of its input *)


(** ** The statistics *)

#[global] Instance Rle_antisymm : AntiSymm eq Rle.
Proof. intros x y Hxy Hyx. by apply Rle_antisym. Qed.

(** The sorted prices around the median: the two middle elements [a] and
    [b] for an even count, the middle element (taken twice) for an odd
    count, with as many prices before as after. *)
Lemma median_split prices :
  prices <> [] ->
  exists lo a b hi,
    computeMedian prices = (a + b) / 2 /\ a <= b /\
    Forall (fun x => x <= a) lo /\ Forall (fun y => b <= y) hi /\
    length lo = length hi /\
    (js_sort (fun a b => a - b) prices = lo ++ a :: b :: hi \/
     a = b /\ js_sort (fun a b => a - b) prices = lo ++ a :: hi).
Proof.
  intros Hne.
  assert (length prices <> 0%nat) as Hn by (by destruct prices).
  pose proof (js_sort_length (fun a b => a - b) prices) as Hlen.
  pose proof (sortedPrices_sorted prices) as Hsorted.
  unfold computeMedian. rewrite decide_False by done. cbv zeta.
  set (s := js_sort (fun a b => a - b) prices) in *.
  destruct (decide (length s mod 2 = 0)%nat) as [Heven|Hodd].
  - set (k := (length s / 2)%nat).
    assert (length s = (2 * k)%nat) as Hs2 by (unfold k; lia).
    destruct (even_split s k Hs2 ltac:(lia)) as (lo & hi & Hs & Hlo & Hhi).
    set (a := nth (k - 1) s 0) in *. set (b := nth k s 0) in *.
    exists lo, a, b, hi. split; [done|].
    rewrite Hs in Hsorted.
    destruct (StronglySorted_middle _ _ _ Hsorted) as [H1 H2].
    apply Forall_cons in H2 as [H2 _].
    assert (lo ++ a :: b :: hi = (lo ++ [a]) ++ b :: hi) as Heq
      by (by rewrite <- app_assoc).
    rewrite Heq in Hsorted.
    destruct (StronglySorted_middle _ _ _ Hsorted) as [_ H3].
    split; [done|]. split; [done|]. split; [done|].
    split; [lia | by left].
  - set (k := (length s / 2)%nat).
    destruct (lookup_lt_is_Some_2 s k) as [x Hx]; [unfold k; lia|].
    rewrite nth_lookup, Hx. simpl.
    pose proof (take_drop_middle s k x Hx) as Hs.
    exists (take k s), x, x, (drop (S k) s).
    rewrite <- Hs in Hsorted.
    destruct (StronglySorted_middle _ _ _ Hsorted) as [H1 H2].
    split; [lra|]. split; [lra|]. split; [done|]. split; [done|].
    split; [|by right].
    rewrite length_take, length_drop. unfold k. lia.
Qed.



Lemma sum_sqDiffs_nonneg mean l : 0 <= sum (sqDiffs mean l).
Proof.
  induction l as [|x l IH]; [unfold sqDiffs, sum; simpl; lra|].
  rewrite sum_sqDiffs_cons. pose proof (pow2_ge_0 (x - mean)). lra.
Qed.

Lemma sum_sqDiffs_zero mean l :
  sum (sqDiffs mean l) = 0 <-> Forall (fun x => x = mean) l.
Proof.
  induction l as [|x l IH].
  - split; [constructor | done].
  - rewrite sum_sqDiffs_cons, Forall_cons.
    pose proof (pow2_ge_0 (x - mean)) as Hx.
    pose proof (sum_sqDiffs_nonneg mean l) as Hl.
    split.
    + intros Hsum. assert ((x - mean) ^ 2 = 0) as Hx0 by lra.
      split; [|apply IH; lra].
      simpl in Hx0. apply Rmult_integral in Hx0 as [Hz|Hz]; lra.
    + intros [-> Hall]. apply IH in Hall. rewrite Hall.
      replace (mean - mean) with 0 by lra. simpl. lra.
Qed.

Lemma computeStandardDeviation_eq prices mean :
  prices <> [] ->
  computeStandardDeviation prices mean =
  sqrt (sum (sqDiffs mean prices) / INR (length prices)).
Proof.
  intros Hne. unfold computeStandardDeviation.
  by rewrite decide_False by (by destruct prices).
Qed.

Lemma computeStandardDeviation_zero_iff prices mean :
  prices <> [] ->
  computeStandardDeviation prices mean = 0 <->
  Forall (fun x => x = mean) prices.
Proof.
  intros Hne. rewrite computeStandardDeviation_eq by done.
  rewrite <- sum_sqDiffs_zero.
  assert (0 < INR (length prices))
    by (apply lt_0_INR; destruct prices; simpl; [done|lia]).
  pose proof (sum_sqDiffs_nonneg mean prices) as Hs.
  assert (0 < / INR (length prices)) as Hinv by (by apply Rinv_0_lt_compat).
  split.
  - intros Hsd. apply sqrt_eq_0 in Hsd; [|unfold Rdiv; nra].
    unfold Rdiv in Hsd. nra.
  - intros ->. unfold Rdiv. rewrite Rmult_0_l. apply sqrt_0.
Qed.

(** ** The store and the slashing engine *)

(** X9.  [getSlashingRecord] on a peer without a row reports (0, false) and
    adds the default row for that peer; on a peer with a row it reports that
    row and leaves the table as it is.  In both cases a second read gives
    the same record and changes nothing more, and no other row is
    touched. *)
Theorem getSlashingRecord_materialises (db : DB) (p : string) :
  let db' := (getSlashingRecord db p).1 in
  let record := (getSlashingRecord db p).2 in
  (db !! p = None ->
   record = mkRecord 0 false /\ db' = <[p := mkRow 0 0]> db) /\
  (forall row,
     db !! p = Some row ->
     record = mkRecord (row_offenses row)
                (bool_decide (row_blacklisted row = 1%Z)) /\
     db' = db) /\
  getSlashingRecord db' p = (db', record) /\
  (forall q, q <> p -> db' !! q = db !! q).
Proof.
  intros db' record. subst db' record.
  split; [|split; [|split]].
  - intros Hnone. unfold getSlashingRecord, stmtGet, stmtInsert.
    by rewrite Hnone.
  - intros row Hrow. unfold getSlashingRecord, stmtGet. by rewrite Hrow.
  - rewrite (surjective_pairing (getSlashingRecord _ p)). f_equal.
    + rewrite !getSlashingRecord_fst. unfold stmtInsert at 1.
      rewrite stmtInsert_lookup. destruct (db !! p); [done|].
      by rewrite decide_True.
    + apply getSlashingRecord_observe.
  - intros q Hq. rewrite getSlashingRecord_fst, stmtInsert_lookup.
    destruct (db !! q); [done|]. by rewrite decide_False.
Qed.

Lemma getSlashingRecord_materialises_witness :
  (getSlashingRecord ∅ "peer_1").2 = mkRecord 0 false /\
  (getSlashingRecord ∅ "peer_1").1 = <["peer_1" := mkRow 0 0]> ∅.
Proof.
  apply (getSlashingRecord_materialises ∅ "peer_1"). reflexivity.
Defined.

Lemma recordSlashingOffense_commute db p q :
  recordSlashingOffense (recordSlashingOffense db p) q =
  recordSlashingOffense (recordSlashingOffense db q) p.
Proof.
  destruct (decide (p = q)) as [->|Hne]; [done|].
  apply map_eq. intros k.
  rewrite !recordSlashingOffense_lookup.
  rewrite !offensesOf_record, !blacklistedOf_record.
  destruct (decide (k = q)) as [Hkq|Hkq]; destruct (decide (k = p)) as [Hkp|Hkp];
    subst; try done;
    repeat (destruct (decide (_ = _)) as [?|?]; try congruence); done.
Qed.

Lemma foldl_recordSlashingOffense_perm ps ps' :
  ps ≡ₚ ps' ->
  forall db,
    foldl recordSlashingOffense db ps = foldl recordSlashingOffense db ps'.
Proof.
  induction 1 as [|x l l' _ IH|x y l|l1 l2 l3 _ IH1 _ IH2]; intros db.
  - done.
  - simpl. apply IH.
  - simpl. by rewrite recordSlashingOffense_commute.
  - by rewrite IH1, IH2.
Qed.

Lemma offenses_batch db ps p :
  offensesOf (foldl recordSlashingOffense db ps) p =
  (offensesOf db p + Z.of_nat (length (filter (fun q => q = p) ps)))%Z /\
  blacklistedOf (foldl recordSlashingOffense db ps) p =
  blacklistedOf db p ||
  bool_decide (0 < Z.of_nat (length (filter (fun q => q = p) ps)) /\
               SLASHING_THRESHOLD <=
               offensesOf db p +
               Z.of_nat (length (filter (fun q => q = p) ps)))%Z.
Proof.
  revert db. induction ps as [|q ps IH]; intros db.
  - rewrite filter_nil. cbn [foldl length]. split; [lia|].
    rewrite bool_decide_false by lia. by rewrite orb_false_r.
  - cbn [foldl]. destruct (IH (recordSlashingOffense db q)) as [Ho Hb].
    rewrite Ho, Hb, offensesOf_record, blacklistedOf_record, filter_cons.
    destruct (decide (q = p)) as [->|Hne].
    + rewrite !decide_True by done. cbn [length]. split; [lia|].
      unfold SLASHING_THRESHOLD.
      destruct (blacklistedOf db p); simpl.
      * by rewrite orb_true_r.
      * repeat case_bool_decide; simpl; try done; lia.
    + rewrite !decide_False by congruence. done.
Qed.

(** X10.  Recording a batch of offenses, one [recordSlashingOffense] call
    per peer id of a list: the count of a peer grows by the number of its
    occurrences in the list; the peer is blacklisted afterwards exactly
    when it was before, or it occurs and its new count has reached
    [SLASHING_THRESHOLD]; and the table obtained does not depend on the
    order of the calls. *)
Theorem recordSlashingOffense_batch (db : DB) (ps : list string) (p : string) :
  let k := Z.of_nat (length (filter (fun q => q = p) ps)) in
  let db' := foldl recordSlashingOffense db ps in
  offensesOf db' p = (offensesOf db p + k)%Z /\
  blacklistedOf db' p =
    blacklistedOf db p ||
    bool_decide (0 < k /\ SLASHING_THRESHOLD <= offensesOf db p + k)%Z /\
  forall ps', ps ≡ₚ ps' -> foldl recordSlashingOffense db ps' = db'.
Proof.
  intros k db'. destruct (offenses_batch db ps p) as [Ho Hb].
  split; [done|]. split; [done|].
  intros ps' Hperm. symmetry. by apply foldl_recordSlashingOffense_perm.
Qed.

(** ** A round as a whole *)

Lemma median_between prices :
  prices <> [] ->
  exists lo hi,
    lo ∈ prices /\ hi ∈ prices /\ lo <= computeMedian prices <= hi.
Proof.
  intros Hne.
  destruct (median_split prices Hne)
    as (lo & a & b & hi & Hm & Hab & _ & _ & _ & Hs).
  pose proof (js_sort_perm (fun a b => a - b) prices) as Hperm.
  assert (a ∈ prices /\ b ∈ prices) as [Ha Hb].
  { rewrite <- !Hperm. destruct Hs as [Hs|[Heq Hs]]; rewrite Hs; split.
    - apply elem_of_app. right. apply list_elem_of_here.
    - apply elem_of_app. right. apply list_elem_of_further, list_elem_of_here.
    - apply elem_of_app. right. apply list_elem_of_here.
    - subst b. apply elem_of_app. right. apply list_elem_of_here. }
  exists a, b. split; [done|]. split; [done|]. lra.
Qed.

(** With a standard deviation of 0 every price is the median. *)
Lemma zero_stdDev_median prices x :
  x ∈ prices ->
  computeStandardDeviation prices (computeMean prices) = 0 ->
  x = computeMedian prices.
Proof.
  intros Hx Hsd.
  assert (prices <> []) as Hne by (intros ->; by apply not_elem_of_nil in Hx).
  apply computeStandardDeviation_zero_iff in Hsd; [|done].
  rewrite Forall_forall in Hsd.
  destruct (median_between prices Hne) as (lo & hi & Hlo & Hhi & Hm).
  rewrite (Hsd lo Hlo), (Hsd hi Hhi) in Hm. rewrite (Hsd x Hx). lra.
Qed.













(** What [getSlashingRecord] reports after a sequence of operations is
    determined by what it reported before. *)
Lemma run_observe db1 db2 ops :
  (forall p, (getSlashingRecord db1 p).2 = (getSlashingRecord db2 p).2) ->
  forall p,
    (getSlashingRecord (run db1 ops) p).2 =
    (getSlashingRecord (run db2 ops) p).2.
Proof.
  revert db1 db2. induction ops as [|op ops IH]; intros db1 db2 Hobs; [done|].
  unfold run in *. cbn [foldl]. apply IH. intros p.
  assert (forall db p, (getSlashingRecord db p).2 =
                       mkRecord (offensesOf db p) (blacklistedOf db p)) as Hrec.
  { intros db q. unfold offensesOf, blacklistedOf.
    by destruct (getSlashingRecord db q).2. }
  assert (forall q, offensesOf db1 q = offensesOf db2 q) as Ho
    by (intros q; unfold offensesOf; by rewrite Hobs).
  assert (forall q, blacklistedOf db1 q = blacklistedOf db2 q) as Hb
    by (intros q; unfold blacklistedOf; by rewrite Hobs).
  rewrite !Hrec, !offensesOf_step, !blacklistedOf_step, !Ho, !Hb. done.
Qed.

(** X13.  Submissions below the minimum stake do not count: a round ends
    as the round without them ends (same error or same result), and
    afterwards [getSlashingRecord] reports the same record for every peer;
    no offense is recorded on their account, whatever their prices. *)
Theorem low_stake_ignored (db : DB) (responses : list Submission) :
  let staked :=
    filter (fun res => ~ sub_balance res < MINIMUM_STAKE_THRESHOLD) responses in
  (processOracleConsensus db responses).2 =
    (processOracleConsensus db staked).2 /\
  forall p,
    (getSlashingRecord (processOracleConsensus db responses).1 p).2 =
    (getSlashingRecord (processOracleConsensus db staked).1 p).2.
Proof.
  intros staked.
  assert (validSet db staked = validSet db responses) as Hv.
  { unfold validSet, staked. f_equal. rewrite list_filter_filter.
    apply list_filter_iff. intros res. unfold qualifies. tauto. }
  split.
  - rewrite !processOracleConsensus_spec. cbv zeta. rewrite Hv.
    by repeat case_decide.
  - intros p. rewrite !processOracleConsensus_run, !run_app, Hv.
    apply run_observe. intros q. by rewrite !stageA_observe.
Qed.










Lemma blacklisted_row_kept db responses p :
  blacklistedOf db p = true ->
  (processOracleConsensus db responses).1 !! p = db !! p.
Proof.
  intros Hbl. rewrite processOracleConsensus_run, run_app.
  assert (run db (stageA_ops responses) !! p = db !! p) as HA.
  { rewrite stageA_lookup.
    by destruct (blacklistedOf_known _ _ Hbl) as [row ->]. }
  case_decide; [done|].
  unfold stageB_ops. rewrite records_lookup_other; [done|].
  unfold outlierSet. apply Forall_filter_keep.
  apply Forall_forall. intros r Hr Heq.
  apply validSet_peer in Hr as [Hb _]. congruence.
Qed.

Lemma observe_of_lookup db db' p :
  db' !! p = db !! p ->
  offensesOf db' p = offensesOf db p /\ blacklistedOf db' p = blacklistedOf db p.
Proof.
  intros Heq. unfold offensesOf, blacklistedOf.
  by rewrite !getSlashingRecord_snd, Heq.
Qed.

(** X17.  The blacklist is final: once the stored record of a peer is
    blacklisted, any sequence of rounds, whatever is submitted in them,
    leaves the row of that peer as it is (still blacklisted, same offense
    count), and in every later round no valid response is that peer's. *)
Theorem blacklisted_forever
    (db : DB) (p : string) (rounds : list (list Submission)) :
  blacklistedOf db p = true ->
  let db' := runRounds db rounds in
  db' !! p = db !! p /\
  blacklistedOf db' p = true /\
  offensesOf db' p = offensesOf db p /\
  forall responses, Forall (fun r => peerId r <> p) (validSet db' responses).
Proof.
  intros Hbl db'. subst db'.
  assert (runRounds db rounds !! p = db !! p) as Hrow.
  { revert db Hbl. induction rounds as [|responses rounds IH]; intros db Hbl;
      [done|].
    unfold runRounds in *. cbn [foldl].
    pose proof (blacklisted_row_kept db responses p Hbl) as Hkept.
    rewrite IH; [done|].
    destruct (observe_of_lookup _ _ _ Hkept) as [_ Hb]. congruence. }
  destruct (observe_of_lookup _ _ _ Hrow) as [Ho Hb].
  split; [done|]. split; [congruence|]. split; [done|].
  intros responses. apply Forall_forall. intros r Hr Heq.
  apply validSet_peer in Hr as [Hnb _]. congruence.
Qed.

Lemma blacklisted_forever_witness :
  runRounds blacklistDb [blacklistSubmissions; outlierSubmissions]
    !! "bad_actor"
  = blacklistDb !! "bad_actor".
Proof.
  apply (blacklisted_forever blacklistDb "bad_actor"
           [blacklistSubmissions; outlierSubmissions]).
  vm_compute. reflexivity.
Defined.

(** ** The outlier filter keeps a majority *)












(** * The program in every arithmetic

    What follows is proved of the definitions of [Numeric] for every
    instance of [Number]: no law of arithmetic is used that is not written
    as a hypothesis. *)

Section NumericFacts.
Import Numeric.
Context {num : Type} `{!Number num}.

(** ** Sorting by the sign of a computed difference *)

Lemma insert_perm {A} (compareFn : A -> A -> num) x l :
  insert compareFn x l ≡ₚ x :: l.
Proof.
  induction l as [|y l IH]; [done|]. cbn [insert].
  destruct (ngt _ _); [|done].
  rewrite IH. apply Permutation_swap.
Qed.

Lemma sort_perm {A} (compareFn : A -> A -> num) l : sort compareFn l ≡ₚ l.
Proof.
  induction l as [|x l IH]; [done|]. cbn [sort].
  by rewrite insert_perm, IH.
Qed.

Lemma sort_length {A} (compareFn : A -> A -> num) l :
  length (sort compareFn l) = length l.
Proof. by rewrite sort_perm. Qed.

Lemma insert_map {A B} (key : A -> B) (compareFn : B -> B -> num) x l :
  map key (insert (fun a b => compareFn (key a) (key b)) x l) =
  insert compareFn (key x) (map key l).
Proof.
  induction l as [|y l IH]; [done|]. cbn [insert map].
  destruct (ngt _ _); cbn [map]; [by rewrite IH | done].
Qed.

Lemma sort_map {A B} (key : A -> B) (compareFn : B -> B -> num) l :
  map key (sort (fun a b => compareFn (key a) (key b)) l) =
  sort compareFn (map key l).
Proof.
  induction l as [|x l IH]; [done|]. cbn [sort map].
  by rewrite insert_map, IH.
Qed.

Lemma consistent_spec {A} (compareFn : A -> A -> num) l :
  consistent compareFn l = true ->
  (forall a b, a ∈ l -> b ∈ l ->
     above compareFn a b = true -> above compareFn b a = false) /\
  (forall a b c, a ∈ l -> b ∈ l -> c ∈ l ->
     above compareFn a b = false -> above compareFn b c = false ->
     above compareFn a c = false).
Proof.
  unfold consistent. rewrite forallb_forall. intros Hall. split.
  - intros a b Ha Hb Hab.
    apply list_elem_of_In, Hall in Ha. rewrite forallb_forall in Ha.
    apply list_elem_of_In, Ha in Hb. apply andb_prop in Hb as [Hb _].
    rewrite Hab in Hb. simpl in Hb. by destruct (above compareFn b a).
  - intros a b c Ha Hb Hc Hab Hbc.
    apply list_elem_of_In, Hall in Ha. rewrite forallb_forall in Ha.
    apply list_elem_of_In, Ha in Hb. apply andb_prop in Hb as [_ Hb].
    rewrite forallb_forall in Hb. apply list_elem_of_In, Hb in Hc.
    rewrite Hab, Hbc in Hc. simpl in Hc.
    by destruct (above compareFn a c).
Qed.

Lemma insert_sorted {A} (compareFn : A -> A -> num) x l :
  (forall a b, a ∈ x :: l -> b ∈ x :: l ->
     above compareFn a b = true -> above compareFn b a = false) ->
  (forall a b c, a ∈ x :: l -> b ∈ x :: l -> c ∈ x :: l ->
     above compareFn a b = false -> above compareFn b c = false ->
     above compareFn a c = false) ->
  StronglySorted (fun a b => above compareFn a b = false) l ->
  StronglySorted (fun a b => above compareFn a b = false)
    (insert compareFn x l).
Proof.
  intros Hasym Htrans Hs. induction Hs as [|y l Hs IH Hy].
  - cbn [insert]. by repeat constructor.
  - cbn [insert]. fold (above compareFn x y).
    destruct (above compareFn x y) eqn:Hxy.
    + constructor.
      * apply IH.
        -- intros a b Ha Hb. apply Hasym.
           ++ apply elem_of_cons in Ha as [->|Ha];
                [left | right; by right].
           ++ apply elem_of_cons in Hb as [->|Hb];
                [left | right; by right].
        -- intros a b c Ha Hb Hc. apply Htrans.
           ++ apply elem_of_cons in Ha as [->|Ha];
                [left | right; by right].
           ++ apply elem_of_cons in Hb as [->|Hb];
                [left | right; by right].
           ++ apply elem_of_cons in Hc as [->|Hc];
                [left | right; by right].
      * apply Forall_forall. intros z Hz.
        rewrite insert_perm in Hz. apply elem_of_cons in Hz as [->|Hz].
        -- apply Hasym; [left | right; left | done].
        -- rewrite Forall_forall in Hy. by apply Hy.
    + constructor; [by constructor|].
      constructor; [done|].
      apply Forall_forall. intros z Hz.
      rewrite Forall_forall in Hy.
      apply (Htrans x y z); [left | right; left | right; by right | done |].
      by apply Hy.
Qed.

Lemma sort_sorted {A} (compareFn : A -> A -> num) l :
  consistent compareFn l = true ->
  StronglySorted (fun a b => above compareFn a b = false) (sort compareFn l).
Proof.
  intros Hc. apply consistent_spec in Hc as [Hasym Htrans].
  induction l as [|x l IH]; [constructor|].
  cbn [sort]. apply insert_sorted.
  - intros a b Ha Hb. rewrite sort_perm in Ha, Hb. by apply Hasym.
  - intros a b c Ha Hb Hc'. rewrite sort_perm in Ha, Hb, Hc'. by apply Htrans.
  - apply IH.
    + intros a b Ha Hb. apply Hasym; by right.
    + intros a b c Ha Hb Hc'. apply Htrans; by right.
Qed.

(** ** The scan of the weighted median *)

Lemma cumulate_cons start (r : QualifiedResponse num) l :
  cumulate start (r :: l) = cumulate (nadd start (weight r)) l.
Proof. done. Qed.

Lemma scan_stops l target start (p : num) :
  scanWeights l target start = Some p ->
  exists k res,
    l !! k = Some res /\ p = price res /\
    nge (cumulate start (take (S k) l)) target = true /\
    forall j, (j < k)%nat ->
      nge (cumulate start (take (S j) l)) target = false.
Proof.
  revert start. induction l as [|r l IH]; intros start; [done|].
  cbn [scanWeights].
  destruct (nge (nadd start (weight r)) target) eqn:Hge.
  - intros [= <-]. exists 0%nat, r. repeat split; [done|]. intros j Hj. lia.
  - intros Hscan. destruct (IH _ Hscan) as (k & res & Hk & Hp & Hge' & Hlt).
    exists (S k), res. repeat split; try done.
    intros [|j] Hj; [done|]. cbn [take]. rewrite cumulate_cons.
    apply Hlt. lia.
Qed.

Lemma scan_runs_out l target start :
  scanWeights l target start = None ->
  forall j, (j < length l)%nat ->
    nge (cumulate start (take (S j) l)) target = false.
Proof.
  revert start. induction l as [|r l IH]; intros start.
  - intros _ j Hj. simpl in Hj. lia.
  - cbn [scanWeights].
    destruct (nge (nadd start (weight r)) target) eqn:Hge; [done|].
    intros Hscan [|j] Hj; [done|]. cbn [take]. rewrite cumulate_cons.
    apply IH; [done|]. simpl in Hj. lia.
Qed.

End NumericFacts.

(** ** The weighted median in every arithmetic *)

Section WeightedMedian.
Import Numeric.
Context {num : Type} `{!Number num}.

Lemma sortByPrice_map (responses : list (QualifiedResponse num)) :
  map price (sortByPrice responses) = sort nsub (map price responses).
Proof. unfold sortByPrice. apply (sort_map price nsub). Qed.

Lemma nonempty_length {A} (l : list A) : l <> [] -> length l <> 0%nat.
Proof. by destruct l. Qed.

(** C1, amended.  For every non-empty list of responses, in whatever
    arithmetic the numbers are computed, [calculateWeightedMedian] works on
    a rearrangement of the responses, ascending by price whenever the signs
    of the computed price differences are those of an order; with the
    cumulative weights the running sums of the weights in that order and
    the target half of their total, it returns the price of the first
    response whose cumulative weight is greater than or equal to the
    target, when there is one; when no cumulative weight reaches the
    target it returns the price of the last response.  On the responses
    (100, 10), (110, 20), (120, 50), (130, 30) it returns 120. *)
Theorem calculateWeightedMedian_scan
    (responses : list (QualifiedResponse num)) :
  let sorted := sortByPrice responses in
  let cumulative k := cumulate (nofZ 0) (take k sorted) in
  let target := ndiv (cumulate (nofZ 0) sorted) (nofZ 2) in
  let byPrice a b := nsub (price a) (price b) in
  responses <> [] ->
  sorted ≡ₚ responses /\
  (consistent byPrice responses = true ->
   StronglySorted (fun a b => above byPrice a b = false) sorted) /\
  ((exists k res,
      sorted !! k = Some res /\
      nge (cumulative (S k)) target = true /\
      (forall j, (j < k)%nat -> nge (cumulative (S j)) target = false) /\
      calculateWeightedMedian responses = price res)
   \/
   ((forall k, nge (cumulative (S k)) target = false) /\
    exists res,
      last sorted = Some res /\
      calculateWeightedMedian responses = price res)) /\
  calculateWeightedMedian testResponses = 120%float.
Proof.
  intros sorted cumulative target byPrice Hne.
  assert (sorted ≡ₚ responses) as Hperm by apply sort_perm.
  split; [done|]. split; [apply sort_sorted|].
  split; [|by vm_compute].
  unfold calculateWeightedMedian.
  rewrite decide_False by by apply nonempty_length.
  cbv zeta. fold sorted. fold target.
  destruct (scanWeights sorted target (nofZ 0)) as [p|] eqn:Hscan.
  - left. destruct (scan_stops _ _ _ _ Hscan) as (k & res & Hk & -> & Hge & Hlt).
    by exists k, res.
  - right. pose proof (scan_runs_out _ _ _ Hscan) as Hlt.
    split.
    + intros k. destruct (decide (k < length sorted)%nat) as [Hk|Hk].
      * by apply Hlt.
      * unfold cumulative. rewrite take_ge by lia.
        assert (length sorted <> 0%nat) as Hlen.
        { unfold sorted, sortByPrice. rewrite sort_length.
          by apply nonempty_length. }
        specialize (Hlt (length sorted - 1)%nat ltac:(lia)).
        rewrite take_ge in Hlt by lia. done.
    + rewrite last_lookup.
      replace (pred (length sorted)) with (length sorted - 1)%nat by lia.
      destruct (sorted !! (length sorted - 1)%nat) as [res|] eqn:Hlast.
      * by exists res.
      * apply lookup_ge_None in Hlast.
        assert (length sorted <> 0%nat) as Hlen.
        { unfold sorted, sortByPrice. rewrite sort_length.
          by apply nonempty_length. }
        lia.
Qed.

End WeightedMedian.

(** C1, as stated, fails: on two responses of weights -3 and 1 no
    cumulative weight (-3, then -2) is greater than or equal to the target
    -1, and [calculateWeightedMedian] returns the price 2 of the last
    response all the same. *)
Lemma calculateWeightedMedian_target_never_reached :
  Numeric.negativeWeights <> [] /\
  Numeric.calculateWeightedMedian Numeric.negativeWeights = 2%float /\
  forall k,
    Numeric.nge
      (Numeric.cumulate (Numeric.nofZ 0)
         (take (S k) (Numeric.sortByPrice Numeric.negativeWeights)))
      (Numeric.ndiv
         (Numeric.cumulate (Numeric.nofZ 0)
            (Numeric.sortByPrice Numeric.negativeWeights))
         (Numeric.nofZ 2)) = false.
Proof.
  split; [done|]. split; [by vm_compute|].
  intros [|[|k]]; by vm_compute.
Qed.

Lemma calculateWeightedMedian_scan_witness :
  Numeric.sortByPrice Numeric.testResponses ≡ₚ Numeric.testResponses /\
  StronglySorted
    (fun a b =>
       Numeric.above
         (fun a b => Numeric.nsub (Numeric.price a) (Numeric.price b)) a b
       = false)
    (Numeric.sortByPrice Numeric.testResponses).
Proof.
  destruct (calculateWeightedMedian_scan Numeric.testResponses)
    as (Hperm & Hsorted & _); [done|].
  split; [exact Hperm|]. apply Hsorted. by vm_compute.
Defined.

(** ** Equal weights in every arithmetic *)

Section EqualWeights.
Import Numeric.
Context {num : Type} `{!Number num}.

Lemma cumulate_uniform (w : num) (l l' : list (QualifiedResponse num)) start :
  Forall (fun r => weight r = w) l -> Forall (fun r => weight r = w) l' ->
  length l = length l' -> cumulate start l = cumulate start l'.
Proof.
  intros Hl. revert l' start.
  induction Hl as [|r l Hr _ IH]; intros l' start Hl' Hlen.
  - by destruct l'.
  - destruct l' as [|r' l']; [done|].
    apply Forall_cons in Hl' as [Hr' Hl'].
    rewrite !cumulate_cons, Hr, Hr'. apply IH; [done|].
    simpl in Hlen. lia.
Qed.

(** C6, amended.  For every non-empty list of responses whose weights are
    all equal, in whatever arithmetic the numbers are computed, provided
    the running sums of the weight compare with half of their total as the
    numbers of summands do (the sum of [k] weights stays below the target
    while [2 k < n], and the sum of [n / 2 + 1] weights reaches it): for
    odd length [calculateWeightedMedian] returns the classical median
    [computeMedian] of the prices, the single middle element; for even
    length it returns one of the two middle elements, of which
    [computeMedian] is the average: the lower one when the sum of the first
    [n / 2] weights reaches the target, the upper one when it does not. *)
Theorem calculateWeightedMedian_equal_weights_middle
    (responses : list (QualifiedResponse num)) (w : num) :
  let n := length responses in
  let cumulative k := cumulate (nofZ 0) (take k responses) in
  let target := ndiv (cumulative n) (nofZ 2) in
  let prices := map price responses in
  let sortedPrices := sort nsub prices in
  let mid := (n / 2)%nat in
  responses <> [] ->
  Forall (fun r => weight r = w) responses ->
  (forall k, (2 * S k < n)%nat -> nge (cumulative (S k)) target = false) ->
  nge (cumulative (S mid)) target = true ->
  (n mod 2 = 1%nat ->
     calculateWeightedMedian responses = nth mid sortedPrices (nofZ 0) /\
     calculateWeightedMedian responses = computeMedian prices) /\
  (n mod 2 = 0%nat ->
     computeMedian prices =
       ndiv (nadd (nth (mid - 1) sortedPrices (nofZ 0))
               (nth mid sortedPrices (nofZ 0))) (nofZ 2) /\
     calculateWeightedMedian responses =
       nth (if nge (cumulative mid) target then mid - 1 else mid)%nat
         sortedPrices (nofZ 0)).
Proof.
  intros n cumulative target prices sortedPrices mid Hne Hall Hbelow Hreach.
  assert (n <> 0%nat) as Hn by by apply nonempty_length.
  set (sorted := sortByPrice responses).
  assert (sorted ≡ₚ responses) as Hperm by apply sort_perm.
  assert (length sorted = n) as Hlen by (by rewrite Hperm).
  assert (Forall (fun r => weight r = w) sorted) as Hall'
    by (by rewrite Hperm).
  assert (forall k, cumulate (nofZ 0) (take k sorted) = cumulative k) as Hcum.
  { intros k. apply (cumulate_uniform w).
    - by apply Forall_take.
    - by apply Forall_take.
    - rewrite !length_take. fold n. lia. }
  assert (ndiv (cumulate (nofZ 0) sorted) (nofZ 2) = target) as Htarget.
  { unfold target. rewrite <- Hcum. by rewrite take_ge by lia. }
  assert (exists k,
            calculateWeightedMedian responses = nth k sortedPrices (nofZ 0) /\
            nge (cumulative (S k)) target = true /\
            forall j, (j < k)%nat -> nge (cumulative (S j)) target = false)
    as (k & Hres & Hge & Hlt).
  { unfold calculateWeightedMedian. rewrite decide_False by done.
    cbv zeta. fold sorted. rewrite Htarget.
    destruct (scanWeights sorted target (nofZ 0)) as [p|] eqn:Hscan.
    - destruct (scan_stops _ _ _ _ Hscan) as (k & res & Hk & -> & Hge & Hlt).
      exists k. rewrite Hcum in Hge. split; [|split; [done|]].
      + unfold sortedPrices, prices. rewrite <- sortByPrice_map. fold sorted.
        symmetry. apply nth_lookup_Some. by rewrite list_lookup_fmap, Hk.
      + intros j Hj. rewrite <- Hcum. by apply Hlt.
    - pose proof (scan_runs_out _ _ _ Hscan mid) as Hlt.
      rewrite Hcum in Hlt. rewrite Hlt in Hreach; [done|].
      rewrite Hlen. unfold mid. lia. }
  assert (k <= mid)%nat as Hhi.
  { destruct (decide (k <= mid)%nat) as [|Hgt]; [done|].
    rewrite Hlt in Hreach by lia. done. }
  assert (n <= 2 * S k)%nat as Hlo.
  { destruct (decide (n <= 2 * S k)%nat) as [|Hgt]; [done|].
    rewrite Hbelow in Hge by lia. done. }
  assert (length sortedPrices = n) as Hsl.
  { unfold sortedPrices, prices. by rewrite sort_length, length_map. }
  assert (length prices = n) as Hpl by apply length_map.
  unfold computeMedian. rewrite decide_False by lia.
  cbv zeta.
  change (sort (fun a b => nsub a b) prices) with sortedPrices.
  rewrite Hsl. fold mid.
  split; intros Hpar.
  - rewrite decide_False by lia. rewrite Hres.
    replace k with mid by (unfold mid in *; lia). done.
  - rewrite decide_True by lia. split; [done|]. rewrite Hres.
    destruct (nge (cumulative mid) target) eqn:Hmid.
    + destruct (decide (k = mid)) as [->|Hk].
      * assert (nge (cumulative (S (mid - 1))) target = false) as Hf
          by (apply Hlt; unfold mid in *; lia).
        replace (S (mid - 1)) with mid in Hf by (unfold mid in *; lia).
        congruence.
      * replace k with (mid - 1)%nat by (unfold mid in *; lia). done.
    + destruct (decide (k = mid)) as [->|Hk]; [done|].
      replace (S k) with mid in Hge by (unfold mid in *; lia).
      rewrite Hge in Hmid. done.
Qed.

End EqualWeights.

(** In exact arithmetic the sums of a positive weight compare with half of
    their total as the numbers of summands do. *)
Lemma cumulate_exact (w : R) (l : list (Numeric.QualifiedResponse R)) start :
  Forall (fun r => Numeric.weight r = w) l ->
  Numeric.cumulate start l = start + INR (length l) * w.
Proof.
  intros Hl. revert start. induction Hl as [|r l Hr _ IH]; intros start.
  - unfold Numeric.cumulate. simpl. lra.
  - rewrite cumulate_cons, IH, Hr. cbn [length]. rewrite S_INR.
    cbn [Numeric.nadd Numeric.Number_R]. lra.
Qed.

Lemma running_sums_exact (responses : list (Numeric.QualifiedResponse R)) w :
  let n := length responses in
  let cumulative k :=
    Numeric.cumulate (Numeric.nofZ 0) (take k responses) in
  let target := Numeric.ndiv (cumulative n) (Numeric.nofZ 2) in
  0 < w -> Forall (fun r => Numeric.weight r = w) responses ->
  (forall k, (2 * S k < n)%nat ->
     Numeric.nge (cumulative (S k)) target = false) /\
  (forall k, (n <= 2 * k)%nat -> (k <= n)%nat ->
     Numeric.nge (cumulative k) target = true).
Proof.
  intros n cumulative target Hw Hall.
  assert (forall k, (k <= n)%nat -> cumulative k = INR k * w) as Hcum.
  { intros k Hk. unfold cumulative.
    rewrite (cumulate_exact w) by by apply Forall_take.
    rewrite length_take. fold n. rewrite Nat.min_l by done.
    cbn [Numeric.nofZ Numeric.Number_R]. lra. }
  assert (target = INR n * w / 2) as Htarget.
  { unfold target. rewrite Hcum by done.
    by cbn [Numeric.ndiv Numeric.nofZ Numeric.Number_R]. }
  split.
  - intros k Hk. rewrite Hcum, Htarget by lia.
    cbn [Numeric.nge Numeric.Number_R]. apply bool_decide_eq_false.
    apply lt_INR in Hk. rewrite mult_INR in Hk. simpl (INR 2) in Hk. nra.
  - intros k Hk Hkn. rewrite Hcum, Htarget by lia.
    cbn [Numeric.nge Numeric.Number_R]. apply bool_decide_eq_true.
    apply le_INR in Hk. rewrite mult_INR in Hk. simpl (INR 2) in Hk. nra.
Qed.

Lemma calculateWeightedMedian_equal_weights_middle_witness :
  Numeric.calculateWeightedMedian Numeric.equalStakes = 103%float /\
  Numeric.computeMedian (map Numeric.price Numeric.equalStakes) = 102.5%float.
Proof.
  destruct (calculateWeightedMedian_equal_weights_middle
              Numeric.equalStakes (PrimFloat.sqrt 103)) as [_ Heven].
  - done.
  - unfold Numeric.equalStakes. cbn [map].
    repeat (apply Forall_cons; split; [reflexivity|]). apply Forall_nil_2.
  - intros [|[|k]] Hk; [by vm_compute | by vm_compute |].
    simpl in Hk. lia.
  - by vm_compute.
  - destruct Heven as [Hmedian Hresult]; [done|].
    split.
    + rewrite Hresult. by vm_compute.
    + rewrite Hmedian. by vm_compute.
Defined.

(** ** Stage B in every arithmetic *)

Section Round.
Import Numeric.
Context {num : Type} `{!Number num}.




End Round.

(** In exact arithmetic nothing is above 2 that is 0, a deviation greater
    than 0 is not 0, and a distance over it is above 2 exactly when the
    distance is above twice it. *)
Lemma exact_flagging (d s : R) :
  Numeric.ngt (Numeric.nofZ 0 : R) (Numeric.nofZ 2) = false /\
  (Numeric.ngt s (Numeric.nofZ 0) = true ->
   Numeric.neq s (Numeric.nofZ 0) = false /\
   Numeric.ngt (Numeric.ndiv d s) (Numeric.nofZ 2) =
   Numeric.ngt d (Numeric.nmul (Numeric.nofZ 2) s)).
Proof.
  cbn [Numeric.ngt Numeric.neq Numeric.ndiv Numeric.nmul Numeric.nofZ
       Numeric.Number_R].
  split; [apply bool_decide_eq_false; lra|].
  intros Hs. apply bool_decide_eq_true in Hs.
  split; [apply bool_decide_eq_false; lra|].
  apply bool_decide_ext. split; intros Hd.
  - apply Rmult_gt_compat_r with (r := s) in Hd; [|lra].
    unfold Rdiv in Hd. rewrite Rmult_assoc, Rinv_l in Hd by lra. lra.
  - unfold Rdiv. apply Rmult_gt_reg_r with (r := s); [lra|].
    rewrite Rmult_assoc, Rinv_l by lra. lra.
Qed.

(** The round of the repository's outlier test in binary64: four
    participants, final price 100, one offense for "malicious". *)
Example outlier_test_binary64 :
  (Numeric.processOracleConsensus ∅ Numeric.outlierSubmissions).2 =
    Numeric.Return (Numeric.mkResult 100%float 4 80%float) /\
  offensesOf (Numeric.processOracleConsensus ∅ Numeric.outlierSubmissions).1
    "malicious" = 1%Z.
Proof. split; by vm_compute. Qed.

(** The weighted-median test of the repository in exact arithmetic. *)
Example weightedMedian_test_exact :
  Numeric.calculateWeightedMedian
    [Numeric.mkResponse "p1" 100 10 0; Numeric.mkResponse "p2" 110 20 0;
     Numeric.mkResponse "p3" 120 50 0; Numeric.mkResponse "p4" 130 30 0]
  = 120.
Proof.
  unfold Numeric.calculateWeightedMedian.
  destruct (decide _) as [Hlen|_]; [simpl in Hlen; lia|].
  cbv zeta. unfold Numeric.sortByPrice.
  repeat (progress
    (cbn [Numeric.sort Numeric.insert Numeric.scanWeights Numeric.cumulate
          foldl Numeric.weight Numeric.price Numeric.ngt Numeric.nge
          Numeric.nsub Numeric.nadd Numeric.ndiv Numeric.nofZ
          Numeric.Number_R];
     repeat first [ rewrite bool_decide_true by lra
                  | rewrite bool_decide_false by lra ])).
  done.
Qed.


(** * The two embeddings agree

    At exact arithmetic the program of [Numeric] is the program on reals
    of the first part: what is proved of either holds of the other. *)

Lemma insert_exact {A} (compareFn : A -> A -> R) x l :
  Numeric.insert compareFn x l = js_insert compareFn x l.
Proof.
  induction l as [|y l IH]; [done|]. cbn [Numeric.insert js_insert].
  cbn [Numeric.ngt Numeric.nofZ Numeric.Number_R].
  destruct (decide (compareFn x y > 0)) as [Hgt|Hle].
  - rewrite bool_decide_true by done. by rewrite IH.
  - by rewrite bool_decide_false by done.
Qed.

Lemma sort_exact {A} (compareFn : A -> A -> R) l :
  Numeric.sort compareFn l = js_sort compareFn l.
Proof.
  induction l as [|x l IH]; [done|]. cbn [Numeric.sort js_sort].
  by rewrite IH, insert_exact.
Qed.

Lemma length_exact (n : nat) : Numeric.nofZ (Z.of_nat n) = INR n.
Proof. cbn [Numeric.nofZ Numeric.Number_R]. by rewrite INR_IZR_INZ. Qed.

Lemma computeMedian_exact prices :
  Numeric.computeMedian prices = computeMedian prices.
Proof.
  unfold Numeric.computeMedian, computeMedian.
  case_decide; [done|]. cbv zeta. by rewrite sort_exact.
Qed.

Lemma computeMean_exact prices :
  Numeric.computeMean prices = computeMean prices.
Proof.
  unfold Numeric.computeMean, computeMean.
  case_decide; [done|]. by rewrite length_exact.
Qed.

Lemma computeStandardDeviation_exact prices mean :
  Numeric.computeStandardDeviation prices mean =
  computeStandardDeviation prices mean.
Proof.
  unfold Numeric.computeStandardDeviation, computeStandardDeviation.
  case_decide; [done|]. cbv zeta. by rewrite length_exact.
Qed.

Lemma cumulate_exactResponse start l :
  Numeric.cumulate start (map exactResponse l) =
  foldl (fun sum res => sum + weight res) start l.
Proof.
  revert start. induction l as [|r l IH]; intros start; [done|].
  cbn [map]. rewrite cumulate_cons. cbn [foldl]. by rewrite IH.
Qed.

Lemma scanWeights_exact l target start :
  Numeric.scanWeights (map exactResponse l) target start =
  scanWeights l target start.
Proof.
  revert start. induction l as [|r l IH]; intros start; [done|].
  cbn [map Numeric.scanWeights scanWeights].
  cbn [Numeric.nge Numeric.nadd Numeric.Number_R exactResponse
       Numeric.weight Numeric.price].
  destruct (decide (start + weight r >= target)) as [Hge|Hlt].
  - by rewrite bool_decide_true by done.
  - rewrite bool_decide_false by done. apply IH.
Qed.

Lemma sortByPrice_exact l :
  Numeric.sortByPrice (map exactResponse l) = map exactResponse (sortByPrice l).
Proof.
  unfold Numeric.sortByPrice, sortByPrice. rewrite sort_exact.
  induction l as [|r l IH]; [done|]. cbn [map js_sort]. rewrite IH.
  generalize (js_sort (fun a b => price a - price b) l). intros s.
  induction s as [|y s IHs]; [done|]. cbn [map js_insert].
  change (Numeric.nsub (Numeric.price (exactResponse r))
            (Numeric.price (exactResponse y))) with (price r - price y).
  case_decide; cbn [map]; [by rewrite IHs | done].
Qed.

Lemma calculateWeightedMedian_exact l :
  Numeric.calculateWeightedMedian (map exactResponse l) =
  calculateWeightedMedian l.
Proof.
  unfold Numeric.calculateWeightedMedian, calculateWeightedMedian.
  rewrite length_map. case_decide; [done|]. cbv zeta.
  rewrite sortByPrice_exact, cumulate_exactResponse, scanWeights_exact.
  fold (sumWeights (sortByPrice l)).
  destruct (scanWeights _ _ _); [done|].
  rewrite length_map, list_lookup_fmap.
  by destruct (sortByPrice l !! _).
Qed.

Lemma identityCheck_exact db responses validResponses :
  Numeric.identityCheck db (map exactSubmission responses)
    (map exactResponse validResponses) =
  ((identityCheck db responses validResponses).1,
   map exactResponse (identityCheck db responses validResponses).2).
Proof.
  revert db validResponses.
  induction responses as [|res responses IH]; intros db validResponses;
    [done|].
  cbn [map Numeric.identityCheck identityCheck].
  cbn [exactSubmission Numeric.sub_peerId Numeric.sub_balance
       Numeric.sub_price].
  destruct (getSlashingRecord db (sub_peerId res)) as [db' record].
  destruct (blacklisted record); [apply IH|].
  unfold Numeric.MINIMUM_STAKE_THRESHOLD, MINIMUM_STAKE_THRESHOLD.
  cbn [Numeric.nlt Numeric.nofZ Numeric.nsqrt Numeric.Number_R].
  destruct (decide (sub_balance res < 100)) as [Hlow|Hok].
  - rewrite bool_decide_true by done. apply IH.
  - rewrite bool_decide_false by done.
    rewrite <- IH. by rewrite map_app.
Qed.

Lemma outlierFilter_exact medianPrice stdDev db validResponses qualified :
  Numeric.outlierFilter medianPrice stdDev db (map exactResponse validResponses)
    (map exactResponse qualified) =
  ((outlierFilter medianPrice stdDev db validResponses qualified).1,
   map exactResponse
     (outlierFilter medianPrice stdDev db validResponses qualified).2).
Proof.
  revert db qualified.
  induction validResponses as [|res validResponses IH]; intros db qualified;
    [done|].
  cbn [map Numeric.outlierFilter outlierFilter].
  assert (Numeric.zScore medianPrice stdDev (exactResponse res) =
          zScore medianPrice stdDev res) as ->.
  { unfold Numeric.zScore, zScore.
    cbn [Numeric.neq Numeric.nofZ Numeric.nabs Numeric.nsub Numeric.ndiv
         Numeric.Number_R exactResponse Numeric.price].
    destruct (decide (stdDev = 0)) as [Hz|Hnz].
    - by rewrite bool_decide_true by done.
    - by rewrite bool_decide_false by done. }
  cbn [Numeric.ngt Numeric.nofZ Numeric.Number_R exactResponse Numeric.peerId].
  destruct (decide (zScore medianPrice stdDev res > 2)) as [Hout|Hin].
  - rewrite bool_decide_true by done. apply IH.
  - rewrite bool_decide_false by done.
    rewrite <- IH. by rewrite map_app.
Qed.

Lemma prices_exact l :
  map Numeric.price (map exactResponse l) = map price l.
Proof. induction l as [|r l IH]; [done|]. cbn [map]. by rewrite IH. Qed.

(** The round of [Numeric] on exact reals is the round of the first
    part. *)
Lemma processOracleConsensus_exact db responses :
  Numeric.processOracleConsensus db (map exactSubmission responses) =
  ((processOracleConsensus db responses).1,
   exactCompletion (processOracleConsensus db responses).2).
Proof.
  unfold Numeric.processOracleConsensus, processOracleConsensus.
  change (@nil (Numeric.QualifiedResponse R))
    with (map exactResponse []) at 1.
  rewrite (identityCheck_exact db responses []).
  destruct (identityCheck db responses []) as [dbA valid]. cbn [fst snd].
  rewrite length_map. case_decide; [done|]. cbv zeta.
  rewrite prices_exact, computeMedian_exact, computeMean_exact,
    computeStandardDeviation_exact.
  unfold filterAndAggregate.
  change (@nil (Numeric.QualifiedResponse R))
    with (map exactResponse []) at 1.
  rewrite (outlierFilter_exact _ _ dbA valid []).
  destruct (outlierFilter _ _ dbA valid []) as [dbB kept]. cbn [fst snd].
  rewrite length_map. case_decide; [done|].
  cbn [fst snd exactCompletion finalPrice participants totalWeight].
  by rewrite calculateWeightedMedian_exact, cumulate_exactResponse.
Qed.
